(** * SyncSettings: the sync-settings panel of the notes web client

    A shallow embedding of [src/components/SyncSettings.tsx].

    The component is a React function component.  Its handlers are closures
    over the values of the render in which they were created: they READ the
    state of that render and WRITE through the state setters.  The embedding
    keeps this split: a handler is a program parameterised by the render
    ([Render]) whose effects are setter calls, notifications, console output
    and awaited calls to the storage, crypto and network services. *)

From Stdlib Require Import String Ascii List Bool ZArith Lia.
Import ListNotations.
Open Scope string_scope.
Open Scope list_scope.

(** ** Data model *)

(** Modelled from the spec: the [SyncSettings] type of [types/sync], whose
    declaration is not among the sources.  Its recognised fields are
    [seed_phrase], [server_url], [custom_servers], [auto_sync] and
    [sync_interval]; the component reads them and copies [sync_interval]. *)
Record SyncSettingsType := {
  auto_sync : bool;
  server_url : string;
  custom_servers : list string;
  seed_phrase : string;
  sync_interval : Z
}.

(** [Partial<SyncSettings>]: every key may be absent.  Both the argument of
    [saveSettings] and the argument of [WebStorageService.saveSyncSettings]
    are objects of this shape. *)
Record PartialSettings := {
  has_auto_sync : option bool;
  has_server_url : option string;
  has_custom_servers : option (list string);
  has_seed_phrase : option string;
  has_sync_interval : option Z
}.

(** An object literal that spells out all five keys. *)
Definition whole (s : SyncSettingsType) : PartialSettings :=
  {| has_auto_sync := Some (auto_sync s);
     has_server_url := Some (server_url s);
     has_custom_servers := Some (custom_servers s);
     has_seed_phrase := Some (seed_phrase s);
     has_sync_interval := Some (sync_interval s) |}.

(** An entry of the server [Select]. *)
Record ServerOption := { label : string; value : string }.

Definition DEFAULT_SERVERS : list ServerOption :=
  [ {| label := "Official Server"; value := "https://notes-sync.0xgingi.com" |};
    {| label := "Local Server"; value := "http://localhost:3222" |} ].

(** [DEFAULT_SERVERS[0].value] *)
Definition DEFAULT_SERVER_0 : string :=
  match DEFAULT_SERVERS with
  | s :: _ => value s
  | [] => ""
  end.

(** The [useState] cells of the component, and the one prop. *)
Record State := {
  seedPhrase : string;
  autoSync : bool;
  showNewSeedPhrase : bool;
  newSeedPhrase : string;
  syncing : bool;
  selectedServer : string;
  customServers : list string;
  newServerUrl : string;
  showAddServer : bool;
  isValidUrl : bool;
  onSync_given : bool
}.

(** A handler sees the state of the render that created it. *)
Definition Render := State.

(** State on mount, before [loadSettings] has answered. *)
Definition initial_state (with_onSync : bool) : State :=
  {| seedPhrase := ""; autoSync := false; showNewSeedPhrase := false;
     newSeedPhrase := ""; syncing := false;
     selectedServer := DEFAULT_SERVER_0; customServers := [];
     newServerUrl := ""; showAddServer := false; isValidUrl := false;
     onSync_given := with_onSync |}.

(** ** Values thrown and shown *)

(** What a [catch] clause can receive: an [Error] (with its message) or any
    other value. *)
Inductive thrown :=
| ErrorObject (message : string)
| OtherValue (shown_as : string).

Inductive throwable (A : Type) :=
| Returned (a : A)
| Threw (t : thrown).
Arguments Returned {A} a.
Arguments Threw {A} t.

Inductive Color := red | green.

(** The argument of [notifications.show]. *)
Record Notification := {
  title : string;
  message : string;
  color : Color;
  autoClose : option bool
}.

(** ** Effects *)

(** Awaited service calls that resolve to nothing. *)
Inductive ucall :=
| InitializeCrypto (seed : string)
| SyncWithServer (server : string)
| SaveSyncSettings (obj : PartialSettings)
| OnSync.

(** Awaited service calls that resolve to a boolean. *)
Inductive bcall :=
| HealthCheck (server : string).

(** Synchronous effects: state setters, notifications, console. *)
Inductive action :=
| SetSeedPhrase (v : string)
| SetAutoSync (v : bool)
| SetShowNewSeedPhrase (v : bool)
| SetNewSeedPhrase (v : string)
| SetSyncing (v : bool)
| SetSelectedServer (v : string)
| SetCustomServers (v : list string)
| SetNewServerUrl (v : string)
| SetShowAddServer (v : bool)
| SetIsValidUrl (v : bool)
| NotificationsShow (n : Notification)
| ConsoleLog (msg : string)
| ConsoleError (msg : string) (err : thrown).

(** A handler body: a finite tree of effects.  [Do] nodes run synchronously;
    the [Await] nodes are the points where an [async] function is suspended
    until the service has answered, by returning or by throwing. *)
Inductive prog (A : Type) :=
| Ret (a : A)
| Throw (t : thrown)
| Do (a : action) (k : prog A)
| AwaitUnit (c : ucall) (k : throwable unit -> prog A)
| AwaitBool (c : bcall) (k : throwable bool -> prog A)
| AwaitSettings (k : throwable SyncSettingsType -> prog A)
| AwaitSeed (k : throwable string -> prog A).
Arguments Ret {A} a.
Arguments Throw {A} t.
Arguments Do {A} a k.
Arguments AwaitUnit {A} c k.
Arguments AwaitBool {A} c k.
Arguments AwaitSettings {A} k.
Arguments AwaitSeed {A} k.

Fixpoint bind {A B : Type} (p : prog A) (f : A -> prog B) : prog B :=
  match p with
  | Ret a => f a
  | Throw t => Throw t
  | Do a k => Do a (bind k f)
  | AwaitUnit c k => AwaitUnit c (fun r => bind (k r) f)
  | AwaitBool c k => AwaitBool c (fun r => bind (k r) f)
  | AwaitSettings k => AwaitSettings (fun r => bind (k r) f)
  | AwaitSeed k => AwaitSeed (fun r => bind (k r) f)
  end.

(** [try { p } catch (e) { h e }] *)
Fixpoint try_catch {A : Type} (p : prog A) (h : thrown -> prog A) : prog A :=
  match p with
  | Ret a => Ret a
  | Throw t => h t
  | Do a k => Do a (try_catch k h)
  | AwaitUnit c k => AwaitUnit c (fun r => try_catch (k r) h)
  | AwaitBool c k => AwaitBool c (fun r => try_catch (k r) h)
  | AwaitSettings k => AwaitSettings (fun r => try_catch (k r) h)
  | AwaitSeed k => AwaitSeed (fun r => try_catch (k r) h)
  end.

(** [try { p } finally { fin }]: [fin] runs on both exits, and the exit of
    [p] is kept unless [fin] itself throws. *)
Fixpoint try_finally {A : Type} (p : prog A) (fin : prog unit) : prog A :=
  match p with
  | Ret a => bind fin (fun _ => Ret a)
  | Throw t => bind fin (fun _ => Throw t)
  | Do a k => Do a (try_finally k fin)
  | AwaitUnit c k => AwaitUnit c (fun r => try_finally (k r) fin)
  | AwaitBool c k => AwaitBool c (fun r => try_finally (k r) fin)
  | AwaitSettings k => AwaitSettings (fun r => try_finally (k r) fin)
  | AwaitSeed k => AwaitSeed (fun r => try_finally (k r) fin)
  end.

Declare Scope prog_scope.
Delimit Scope prog_scope with prog.
Notation "x <- p ;; q" := (bind p (fun x => q))
  (at level 61, p at next level, right associativity) : prog_scope.
Notation "p ;; q" := (bind p (fun _ => q))
  (at level 61, right associativity) : prog_scope.
Open Scope prog_scope.

(** [await e]: the value [e] resolved to, or the rejection rethrown. *)
Definition settle {A : Type} (r : throwable A) : prog A :=
  match r with
  | Returned a => Ret a
  | Threw t => Throw t
  end.

Definition perform (a : action) : prog unit := Do a (Ret tt).
Definition await_unit (c : ucall) : prog unit := AwaitUnit c settle.
Definition await_bool (c : bcall) : prog bool := AwaitBool c settle.

(** [WebStorageService.getSyncSettings()] *)
Definition getSyncSettings : prog SyncSettingsType := AwaitSettings settle.
(** [CryptoService.generateNewSeedPhrase()] *)
Definition CryptoService_generateNewSeedPhrase : prog string := AwaitSeed settle.

Definition notifications_show (n : Notification) : prog unit :=
  perform (NotificationsShow n).

(** ** The handlers *)

Definition includes (l : list string) (s : string) : bool :=
  existsb (String.eqb s) l.

(** [DEFAULT_SERVERS.some(s => s.value === url)] *)
Definition is_default_server (url : string) : bool :=
  existsb (fun s => String.eqb (value s) url) DEFAULT_SERVERS.

(** Truthiness of a [string | null]. *)
Definition truthy (v : option string) : bool :=
  match v with
  | Some s => negb (String.eqb s "")
  | None => false
  end.

Section UrlParser.
(** [new URL(url)] of the platform: [true] when the constructor returns,
    [false] when it throws. *)
Variable URL_parses : string -> bool.

Definition validateUrl (url : string) : bool :=
  if URL_parses url then true else false.

Definition handleUrlChange (v : string) : prog unit :=
  perform (SetNewServerUrl v) ;;
  perform (SetIsValidUrl (validateUrl v)).
End UrlParser.

(** [`Server ${server} is not healthy`] *)
Definition not_healthy (server : string) : string :=
  "Server " ++ server ++ " is not healthy".
Arguments not_healthy : simpl never.

Section Handlers.
Variable r : Render.

Definition saveSettings (updates : PartialSettings) : prog unit :=
  try_catch
    (currentSettings <- getSyncSettings ;;
     let newSettings :=
       {| auto_sync := match has_auto_sync updates with
                       | Some v => v | None => autoSync r end;
          server_url := match has_server_url updates with
                        | Some v => v | None => selectedServer r end;
          custom_servers := match has_custom_servers updates with
                            | Some v => v | None => customServers r end;
          seed_phrase := match has_seed_phrase updates with
                         | Some v => v | None => seedPhrase r end;
          sync_interval := sync_interval currentSettings |} in
     await_unit (SaveSyncSettings (whole newSettings)))
    (fun _ =>
       notifications_show
         {| title := "Error"; message := "Failed to save settings";
            color := red; autoClose := None |}).

Definition handleAddServer : prog unit :=
  try_catch
    (if negb (isValidUrl r) then Ret tt
     else if includes (customServers r) (newServerUrl r)
             || is_default_server (newServerUrl r)
     then
       notifications_show
         {| title := "Error"; message := "Server already exists";
            color := red; autoClose := None |}
     else
       let updatedServers := customServers r ++ [newServerUrl r] in
       perform (SetCustomServers updatedServers) ;;
       perform (SetSelectedServer (newServerUrl r)) ;;
       saveSettings
         {| has_auto_sync := None;
            has_server_url := Some (newServerUrl r);
            has_custom_servers := Some updatedServers;
            has_seed_phrase := None;
            has_sync_interval := None |} ;;
       perform (SetNewServerUrl "") ;;
       perform (SetShowAddServer false) ;;
       notifications_show
         {| title := "Success"; message := "Server added successfully";
            color := green; autoClose := None |})
    (fun _ =>
       notifications_show
         {| title := "Error"; message := "Failed to add server";
            color := red; autoClose := None |}).

(** [event.key === 'Enter' && isValidUrl] *)
Definition handleKeyPress (key : string) : prog unit :=
  if String.eqb key "Enter" && isValidUrl r then handleAddServer else Ret tt.

Definition handleRemoveServer (serverUrl : string) : prog unit :=
  let updatedServers :=
    filter (fun url => negb (String.eqb url serverUrl)) (customServers r) in
  perform (SetCustomServers updatedServers) ;;
  saveSettings
    {| has_auto_sync := None; has_server_url := None;
       has_custom_servers := Some updatedServers;
       has_seed_phrase := None; has_sync_interval := None |} ;;
  if String.eqb (selectedServer r) serverUrl then
    let newServer := DEFAULT_SERVER_0 in
    perform (SetSelectedServer newServer) ;;
    saveSettings
      {| has_auto_sync := None; has_server_url := Some newServer;
         has_custom_servers := None;
         has_seed_phrase := None; has_sync_interval := None |}
  else Ret tt.

Definition handleServerChange (v : option string) : prog unit :=
  match v with
  | Some s =>
      if truthy v then
        perform (SetSelectedServer s) ;;
        saveSettings
          {| has_auto_sync := None; has_server_url := Some s;
             has_custom_servers := None;
             has_seed_phrase := None; has_sync_interval := None |}
      else Ret tt
  | None => Ret tt
  end.

(** [error instanceof Error ? error.message : 'Failed to sync notes'] *)
Definition sync_error_message (error : thrown) : string :=
  match error with
  | ErrorObject m => m
  | OtherValue _ => "Failed to sync notes"
  end.

Definition handleSync : prog unit :=
  if String.eqb (seedPhrase r) "" then
    notifications_show
      {| title := "Error"; message := "Please enter a seed phrase";
         color := red; autoClose := None |}
  else
    perform (SetSyncing true) ;;
    try_finally
      (try_catch
         (perform (ConsoleLog "Starting sync process...") ;;
          await_unit (InitializeCrypto (seedPhrase r)) ;;
          perform (ConsoleLog "Crypto initialized") ;;
          isHealthy <- await_bool (HealthCheck (selectedServer r)) ;;
          (if negb isHealthy then
             Throw (ErrorObject (not_healthy (selectedServer r)))
           else Ret tt) ;;
          perform (ConsoleLog "Server health check passed") ;;
          await_unit (SyncWithServer (selectedServer r)) ;;
          perform (ConsoleLog "Sync completed") ;;
          await_unit
            (SaveSyncSettings
               {| has_auto_sync := None; has_server_url := None;
                  has_custom_servers := None;
                  has_seed_phrase := Some (seedPhrase r);
                  has_sync_interval := None |}) ;;
          perform (ConsoleLog "Settings saved") ;;
          (if onSync_given r then await_unit OnSync else Ret tt) ;;
          notifications_show
            {| title := "Success"; message := "Notes synced successfully";
               color := green; autoClose := None |})
         (fun error =>
            perform (ConsoleError "Sync error:" error) ;;
            notifications_show
              {| title := "Error"; message := sync_error_message error;
                 color := red; autoClose := Some false |}))
      (perform (SetSyncing false)).

Definition generateNewSeedPhrase : prog unit :=
  try_catch
    (mnemonic <- CryptoService_generateNewSeedPhrase ;;
     await_unit (InitializeCrypto mnemonic) ;;
     perform (SetNewSeedPhrase mnemonic) ;;
     perform (SetSeedPhrase mnemonic) ;;
     saveSettings
       {| has_auto_sync := None; has_server_url := None;
          has_custom_servers := None;
          has_seed_phrase := Some mnemonic; has_sync_interval := None |} ;;
     perform (SetShowNewSeedPhrase true))
    (fun error =>
       perform (ConsoleError "Failed to generate seed phrase:" error) ;;
       notifications_show
         {| title := "Error"; message := "Failed to generate seed phrase";
            color := red; autoClose := None |}).

(** [onChange] of the seed-phrase [PasswordInput]. *)
Definition onSeedPhraseChange (v : string) : prog unit :=
  perform (SetSeedPhrase v) ;;
  saveSettings
    {| has_auto_sync := None; has_server_url := None;
       has_custom_servers := None;
       has_seed_phrase := Some v; has_sync_interval := None |}.

(** [onChange] of the auto-sync [Switch]. *)
Definition onAutoSyncChange (checked : bool) : prog unit :=
  perform (SetAutoSync checked) ;;
  saveSettings
    {| has_auto_sync := Some checked; has_server_url := None;
       has_custom_servers := None;
       has_seed_phrase := None; has_sync_interval := None |}.

(** The entries of the server [Select]: the defaults, then one entry per
    custom server. *)
Definition serverOptions : list ServerOption :=
  DEFAULT_SERVERS
  ++ map (fun url => {| label := url; value := url |}) (customServers r).
End Handlers.

(** The mount effect.  [custom_servers || []] and [seed_phrase ?? ''] are
    the identity on the values [SyncSettingsType] carries. *)
Definition loadSettings : prog unit :=
  try_catch
    (settings <- getSyncSettings ;;
     perform (SetAutoSync (auto_sync settings)) ;;
     perform (SetSelectedServer (server_url settings)) ;;
     perform (SetCustomServers (custom_servers settings)) ;;
     perform (SetSeedPhrase (seed_phrase settings)))
    (fun err => perform (ConsoleError "Failed to load settings:" err)).

(** ** Running a handler *)

Definition apply_action (a : action) (st : State) : State :=
  match a with
  | SetSeedPhrase v =>
      {| seedPhrase := v; autoSync := autoSync st;
         showNewSeedPhrase := showNewSeedPhrase st;
         newSeedPhrase := newSeedPhrase st; syncing := syncing st;
         selectedServer := selectedServer st;
         customServers := customServers st; newServerUrl := newServerUrl st;
         showAddServer := showAddServer st; isValidUrl := isValidUrl st;
         onSync_given := onSync_given st |}
  | SetAutoSync v =>
      {| seedPhrase := seedPhrase st; autoSync := v;
         showNewSeedPhrase := showNewSeedPhrase st;
         newSeedPhrase := newSeedPhrase st; syncing := syncing st;
         selectedServer := selectedServer st;
         customServers := customServers st; newServerUrl := newServerUrl st;
         showAddServer := showAddServer st; isValidUrl := isValidUrl st;
         onSync_given := onSync_given st |}
  | SetShowNewSeedPhrase v =>
      {| seedPhrase := seedPhrase st; autoSync := autoSync st;
         showNewSeedPhrase := v;
         newSeedPhrase := newSeedPhrase st; syncing := syncing st;
         selectedServer := selectedServer st;
         customServers := customServers st; newServerUrl := newServerUrl st;
         showAddServer := showAddServer st; isValidUrl := isValidUrl st;
         onSync_given := onSync_given st |}
  | SetNewSeedPhrase v =>
      {| seedPhrase := seedPhrase st; autoSync := autoSync st;
         showNewSeedPhrase := showNewSeedPhrase st;
         newSeedPhrase := v; syncing := syncing st;
         selectedServer := selectedServer st;
         customServers := customServers st; newServerUrl := newServerUrl st;
         showAddServer := showAddServer st; isValidUrl := isValidUrl st;
         onSync_given := onSync_given st |}
  | SetSyncing v =>
      {| seedPhrase := seedPhrase st; autoSync := autoSync st;
         showNewSeedPhrase := showNewSeedPhrase st;
         newSeedPhrase := newSeedPhrase st; syncing := v;
         selectedServer := selectedServer st;
         customServers := customServers st; newServerUrl := newServerUrl st;
         showAddServer := showAddServer st; isValidUrl := isValidUrl st;
         onSync_given := onSync_given st |}
  | SetSelectedServer v =>
      {| seedPhrase := seedPhrase st; autoSync := autoSync st;
         showNewSeedPhrase := showNewSeedPhrase st;
         newSeedPhrase := newSeedPhrase st; syncing := syncing st;
         selectedServer := v;
         customServers := customServers st; newServerUrl := newServerUrl st;
         showAddServer := showAddServer st; isValidUrl := isValidUrl st;
         onSync_given := onSync_given st |}
  | SetCustomServers v =>
      {| seedPhrase := seedPhrase st; autoSync := autoSync st;
         showNewSeedPhrase := showNewSeedPhrase st;
         newSeedPhrase := newSeedPhrase st; syncing := syncing st;
         selectedServer := selectedServer st;
         customServers := v; newServerUrl := newServerUrl st;
         showAddServer := showAddServer st; isValidUrl := isValidUrl st;
         onSync_given := onSync_given st |}
  | SetNewServerUrl v =>
      {| seedPhrase := seedPhrase st; autoSync := autoSync st;
         showNewSeedPhrase := showNewSeedPhrase st;
         newSeedPhrase := newSeedPhrase st; syncing := syncing st;
         selectedServer := selectedServer st;
         customServers := customServers st; newServerUrl := v;
         showAddServer := showAddServer st; isValidUrl := isValidUrl st;
         onSync_given := onSync_given st |}
  | SetShowAddServer v =>
      {| seedPhrase := seedPhrase st; autoSync := autoSync st;
         showNewSeedPhrase := showNewSeedPhrase st;
         newSeedPhrase := newSeedPhrase st; syncing := syncing st;
         selectedServer := selectedServer st;
         customServers := customServers st; newServerUrl := newServerUrl st;
         showAddServer := v; isValidUrl := isValidUrl st;
         onSync_given := onSync_given st |}
  | SetIsValidUrl v =>
      {| seedPhrase := seedPhrase st; autoSync := autoSync st;
         showNewSeedPhrase := showNewSeedPhrase st;
         newSeedPhrase := newSeedPhrase st; syncing := syncing st;
         selectedServer := selectedServer st;
         customServers := customServers st; newServerUrl := newServerUrl st;
         showAddServer := showAddServer st; isValidUrl := v;
         onSync_given := onSync_given st |}
  | NotificationsShow _ | ConsoleLog _ | ConsoleError _ _ => st
  end.

(** What an observer of the component and of its services sees. *)
Inductive event :=
| Did (a : action)
| UnitCall (c : ucall) (answer : throwable unit)
| BoolCall (c : bcall) (answer : throwable bool)
| SettingsCall (answer : throwable SyncSettingsType)
| SeedCall (answer : throwable string).

(** The services behind the component.  Each may answer by returning or by
    throwing, and its answer may depend on everything that happened before. *)
Record Services := {
  answer_unit : list event -> ucall -> throwable unit;
  answer_bool : list event -> bcall -> throwable bool;
  answer_settings : list event -> throwable SyncSettingsType;
  answer_seed : list event -> throwable string
}.

(** Runs [p] to its end against [env], from the live state [st], with [past]
    the events so far.  The result is the exit of [p], the live state and
    the events in the order they happened. *)
Fixpoint run {A : Type} (env : Services) (p : prog A) (st : State)
    (past : list event) : throwable A * State * list event :=
  match p with
  | Ret a => (Returned a, st, past)
  | Throw t => (Threw t, st, past)
  | Do a k => run env k (apply_action a st) (past ++ [Did a])
  | AwaitUnit c k =>
      let ans := answer_unit env past c in
      run env (k ans) st (past ++ [UnitCall c ans])
  | AwaitBool c k =>
      let ans := answer_bool env past c in
      run env (k ans) st (past ++ [BoolCall c ans])
  | AwaitSettings k =>
      let ans := answer_settings env past in
      run env (k ans) st (past ++ [SettingsCall ans])
  | AwaitSeed k =>
      let ans := answer_seed env past in
      run env (k ans) st (past ++ [SeedCall ans])
  end.

Definition exit_of {A : Type} (x : throwable A * State * list event) :=
  fst (fst x).
Definition state_of {A : Type} (x : throwable A * State * list event) :=
  snd (fst x).
Definition trace_of {A : Type} (x : throwable A * State * list event) :=
  snd x.

(** A handler invoked on a quiescent component: its render is the live
    state. *)
Definition invoke (env : Services) (h : Render -> prog unit) (st : State) :=
  run env (h st) st [].

(** The notifications a trace shows to the user, in order. *)
Definition notifications_of (tr : list event) : list Notification :=
  flat_map (fun e => match e with
                     | Did (NotificationsShow n) => [n]
                     | _ => []
                     end) tr.

(** ** Observations on traces *)

(** The errors the services answered with, in order. *)
Definition raw_errors (tr : list event) : list thrown :=
  flat_map (fun e => match e with
                     | UnitCall _ (Threw t) | BoolCall _ (Threw t)
                     | SettingsCall (Threw t) | SeedCall (Threw t) => [t]
                     | _ => []
                     end) tr.

(** No notification repeats the message of an [Error] a service threw. *)
Definition never_shows_raw (tr : list event) : Prop :=
  forall n m, In n (notifications_of tr) -> In (ErrorObject m) (raw_errors tr) ->
              message n <> m.

Definition success_notification : Notification :=
  {| title := "Success"; message := "Notes synced successfully";
     color := green; autoClose := None |}.

(** A field of a merged settings object, in the words of the settings
    contract: the update's value when the update names the field, the
    current value otherwise. *)
Definition field_merged {A : Type} (named : option A) (current : A)
    (saved : option A) : Prop :=
  match named with
  | Some v => saved = Some v
  | None => saved = Some current
  end.

(** ** Sample services and states *)

Definition services_ok (cur : SyncSettingsType) : Services :=
  {| answer_unit := fun _ _ => Returned tt;
     answer_bool := fun _ _ => Returned true;
     answer_settings := fun _ => Returned cur;
     answer_seed := fun _ => Returned "abandon ability able about" |}.

(** The server answers the health probe with [false]. *)
Definition services_unhealthy (cur : SyncSettingsType) : Services :=
  {| answer_unit := fun _ _ => Returned tt;
     answer_bool := fun _ _ => Returned false;
     answer_settings := fun _ => Returned cur;
     answer_seed := fun _ => Returned "abandon ability able about" |}.

(** The network is down: [syncWithServer] rejects with the fetch error. *)
Definition services_offline (cur : SyncSettingsType) : Services :=
  {| answer_unit := fun _ c =>
       match c with
       | SyncWithServer _ => Threw (ErrorObject "Failed to fetch")
       | _ => Returned tt
       end;
     answer_bool := fun _ _ => Returned true;
     answer_settings := fun _ => Returned cur;
     answer_seed := fun _ => Returned "abandon ability able about" |}.

Definition stored_defaults : SyncSettingsType :=
  {| auto_sync := false; server_url := DEFAULT_SERVER_0; custom_servers := [];
     seed_phrase := ""; sync_interval := 300 |}.

(** A component whose user has typed a seed phrase. *)
Definition with_seed (phrase : string) : State :=
  {| seedPhrase := phrase; autoSync := false; showNewSeedPhrase := false;
     newSeedPhrase := ""; syncing := false;
     selectedServer := DEFAULT_SERVER_0; customServers := [];
     newServerUrl := ""; showAddServer := false; isValidUrl := false;
     onSync_given := true |}.

(** ** Server selection *)

(** The selected server is a default server or a custom server. *)
Definition server_invariant (st : State) : Prop :=
  In (selectedServer st) (map value DEFAULT_SERVERS)
  \/ In (selectedServer st) (customServers st).

(** The operations on the selection and on the custom servers. *)
Inductive server_op :=
| AddServer
| RemoveServer (serverUrl : string)
| ChangeServer (v : option string).

Definition server_handler (op : server_op) (r : Render) : prog unit :=
  match op with
  | AddServer => handleAddServer r
  | RemoveServer serverUrl => handleRemoveServer r serverUrl
  | ChangeServer v => handleServerChange r v
  end.

(** What the widgets can deliver: the [Select] reports [null] or the value
    of one of the entries it was given in [data]. *)
Definition offered (st : State) (op : server_op) : Prop :=
  match op with
  | ChangeServer (Some v) => In v (map value (serverOptions st))
  | _ => True
  end.

(** ** A sample URL parser *)

(** A first test of an absolute URL: the text starts with a scheme, a letter
    followed by letters, digits, [+], [-] or [.] up to a colon.  It stands in
    for the platform parser where a concrete one is needed. *)
Definition scheme_char (c : Ascii.ascii) : bool :=
  let n := Ascii.nat_of_ascii c in
  ((65 <=? n) && (n <=? 90) || (97 <=? n) && (n <=? 122)
   || (48 <=? n) && (n <=? 57) || (n =? 43) || (n =? 45) || (n =? 46))%nat.

Definition scheme_start (c : Ascii.ascii) : bool :=
  let n := Ascii.nat_of_ascii c in
  ((65 <=? n) && (n <=? 90) || (97 <=? n) && (n <=? 122))%nat.

Fixpoint scheme_ends (s : string) : bool :=
  match s with
  | EmptyString => false
  | String c s' =>
      if Ascii.eqb c ":"%char then true
      else if scheme_char c then scheme_ends s' else false
  end.

Definition starts_with_scheme (s : string) : bool :=
  match s with
  | EmptyString => false
  | String c s' => scheme_start c && scheme_ends s'
  end.

(** ** The component as a system of tasks

    An [async] handler runs synchronously up to its first [await]; there it
    is parked until the awaited service answers, and meanwhile the user may
    act again and other parked handlers may be resumed.  A system state is
    the live component state, the parked handlers and the events so far. *)

(** What the user (or React, for [Mount]) can do to the component. *)
Inductive ui_event :=
| Mount
| ClickOpenAddServer
| ClickCloseAddServer
| ClickCloseNewSeedPhrase
| TypeServerUrl (v : string)
| PressKey (key : string)
| ClickAddServer
| ClickRemoveServer (serverUrl : string)
| SelectServer (v : option string)
| TypeSeedPhrase (v : string)
| ToggleAutoSync (checked : bool)
| ClickSyncNow
| ClickGenerate.

Definition handler_of (parses : string -> bool) (ev : ui_event) (r : Render)
    : prog unit :=
  match ev with
  | Mount => loadSettings
  | ClickOpenAddServer => perform (SetShowAddServer true)
  | ClickCloseAddServer => perform (SetShowAddServer false)
  | ClickCloseNewSeedPhrase => perform (SetShowNewSeedPhrase false)
  | TypeServerUrl v => handleUrlChange parses v
  | PressKey key => handleKeyPress r key
  | ClickAddServer => handleAddServer r
  | ClickRemoveServer serverUrl => handleRemoveServer r serverUrl
  | SelectServer v => handleServerChange r v
  | TypeSeedPhrase v => onSeedPhraseChange r v
  | ToggleAutoSync checked => onAutoSyncChange r checked
  | ClickSyncNow => handleSync r
  | ClickGenerate => generateNewSeedPhrase r
  end.

(** What the rendered widgets let through.  The Sync Now button is rendered
    with [loading={syncing}] and a loading button takes no click; the Add
    Server button is rendered with [disabled={!isValidUrl}]; the trash icons
    sit on the custom entries; the [Select] reports [null] or one of its
    entries. *)
Definition enabled (st : State) (ev : ui_event) : Prop :=
  match ev with
  | ClickSyncNow => syncing st = false
  | ClickAddServer => isValidUrl st = true
  | ClickRemoveServer serverUrl => In serverUrl (customServers st)
  | SelectServer (Some v) => In v (map value (serverOptions st))
  | _ => True
  end.

Definition is_sync_cycle (ev : ui_event) : bool :=
  match ev with
  | ClickSyncNow => true
  | _ => false
  end.

(** A parked handler: where it came from and what is left of it. *)
Record Task := { source : ui_event; rest : prog unit }.

Record System := {
  component : State;
  parked : list Task;
  seen : list event
}.

Definition system_on_mount (with_onSync : bool) : System :=
  {| component := initial_state with_onSync; parked := []; seen := [] |}.

(** Runs the synchronous stretch of [p]: up to its end or its next await. *)
Fixpoint advance {A : Type} (p : prog A) (st : State) (past : list event)
    : prog A * State * list event :=
  match p with
  | Do a k => advance k (apply_action a st) (past ++ [Did a])
  | _ => (p, st, past)
  end.

Definition suspended {A : Type} (p : prog A) : bool :=
  match p with
  | AwaitUnit _ _ | AwaitBool _ _ | AwaitSettings _ | AwaitSeed _ => true
  | _ => false
  end.

(** A handler that stopped at an await is parked; one that ended is gone. *)
Definition park (src : ui_event) (p : prog unit) : list Task :=
  if suspended p then [ {| source := src; rest := p |} ] else [].

(** The answer a service gives to an awaited call. *)
Inductive answer :=
| UnitAnswer (a : throwable unit)
| BoolAnswer (a : throwable bool)
| SettingsAnswer (a : throwable SyncSettingsType)
| SeedAnswer (a : throwable string).

(** The continuation of a parked handler on an answer of the right kind,
    and the event the answer leaves. *)
Definition resume {A : Type} (p : prog A) (a : answer)
    : option (prog A * event) :=
  match p, a with
  | AwaitUnit c k, UnitAnswer x => Some (k x, UnitCall c x)
  | AwaitBool c k, BoolAnswer x => Some (k x, BoolCall c x)
  | AwaitSettings k, SettingsAnswer x => Some (k x, SettingsCall x)
  | AwaitSeed k, SeedAnswer x => Some (k x, SeedCall x)
  | _, _ => None
  end.

(** The answer [env] gives to the await [p] is stopped at. *)
Definition answer_of {A : Type} (env : Services) (past : list event)
    (p : prog A) : option answer :=
  match p with
  | AwaitUnit c _ => Some (UnitAnswer (answer_unit env past c))
  | AwaitBool c _ => Some (BoolAnswer (answer_bool env past c))
  | AwaitSettings _ => Some (SettingsAnswer (answer_settings env past))
  | AwaitSeed _ => Some (SeedAnswer (answer_seed env past))
  | _ => None
  end.

(** The user acts: the handler of the current render runs up to its first
    await and is parked there, if it gets that far. *)
Definition dispatch (parses : string -> bool) (s : System) (ev : ui_event)
    : System :=
  let '(p, st, tr) :=
    advance (handler_of parses ev (component s)) (component s) (seen s) in
  {| component := st; parked := parked s ++ park ev p; seen := tr |}.

(** A service answers the parked handler [t]: it runs on to its next await
    or to its end. *)
Definition deliver (s : System) (before after : list Task) (t : Task)
    (a : answer) : option System :=
  match resume (rest t) a with
  | Some (q, e) =>
      let '(p, st, tr) := advance q (component s) (seen s ++ [e]) in
      Some {| component := st;
              parked := before ++ park (source t) p ++ after;
              seen := tr |}
  | None => None
  end.

Inductive step (parses : string -> bool) : System -> System -> Prop :=
| step_event (s : System) (ev : ui_event) :
    enabled (component s) ev ->
    step parses s (dispatch parses s ev)
| step_answer (s s' : System) (before after : list Task) (t : Task)
    (a : answer) :
    parked s = before ++ t :: after ->
    deliver s before after t a = Some s' ->
    step parses s s'.

Inductive reachable (parses : string -> bool) (with_onSync : bool)
    : System -> Prop :=
| reachable_mount : reachable parses with_onSync (system_on_mount with_onSync)
| reachable_step (s s' : System) :
    reachable parses with_onSync s -> step parses s s' ->
    reachable parses with_onSync s'.

(** The number of sync cycles that have started and not yet ended. *)
Definition cycles (l : list Task) : nat :=
  length (filter (fun t => is_sync_cycle (source t)) l).

Definition cycles_in_flight (s : System) : nat := cycles (parked s).

Definition sets_syncing (a : action) : bool :=
  match a with
  | SetSyncing _ => true
  | _ => false
  end.

(** [p] never writes the [syncing] flag. *)
Fixpoint flag_free {A : Type} (p : prog A) : Prop :=
  match p with
  | Ret _ | Throw _ => True
  | Do a k => sets_syncing a = false /\ flag_free k
  | AwaitUnit _ k => forall x, flag_free (k x)
  | AwaitBool _ k => forall x, flag_free (k x)
  | AwaitSettings k => forall x, flag_free (k x)
  | AwaitSeed k => forall x, flag_free (k x)
  end.

(** [p] runs to its end without awaiting. *)
Fixpoint runs_out {A : Type} (p : prog A) : Prop :=
  match p with
  | Ret _ | Throw _ => True
  | Do _ k => runs_out k
  | _ => False
  end.

(** [p] writes the [syncing] flag only in its last synchronous stretch. *)
Fixpoint holds_flag {A : Type} (p : prog A) : Prop :=
  match p with
  | Ret _ | Throw _ => True
  | Do a k => if sets_syncing a then runs_out k else holds_flag k
  | AwaitUnit _ k => forall x, holds_flag (k x)
  | AwaitBool _ k => forall x, holds_flag (k x)
  | AwaitSettings k => forall x, holds_flag (k x)
  | AwaitSeed k => forall x, holds_flag (k x)
  end.

(** The invariant of the task system: every parked sync cycle keeps the flag
    until it ends, no other parked handler writes the flag, at most one
    cycle is parked, and the flag is up while one is. *)
Definition task_invariant (s : System) : Prop :=
  (forall t, In t (parked s) ->
     if is_sync_cycle (source t) then holds_flag (rest t)
     else flag_free (rest t))
  /\ (cycles_in_flight s <= 1)%nat
  /\ (cycles_in_flight s = 1%nat -> syncing (component s) = true).

(** ** A sample system state *)

(** A component in the middle of a sync cycle: the user has typed a seed
    phrase and pressed Sync Now, and no service has answered yet. *)
Definition system_mid_sync : System :=
  dispatch starts_with_scheme
    (dispatch starts_with_scheme (system_on_mount false)
       (TypeSeedPhrase "abandon ability able about"))
    ClickSyncNow.

(** ** Further observations *)

(** A call to one of the services, without its answer. *)
Inductive service_call :=
| CallUnit (c : ucall)
| CallBool (c : bcall)
| CallSettings
| CallSeed.

(** The service calls of a trace, in order. *)
Definition calls_of (tr : list event) : list service_call :=
  flat_map (fun e => match e with
                     | UnitCall c _ => [CallUnit c]
                     | BoolCall c _ => [CallBool c]
                     | SettingsCall _ => [CallSettings]
                     | SeedCall _ => [CallSeed]
                     | Did _ => []
                     end) tr.

(** The calls of a sync cycle that runs to its end, for the render [r]. *)
Definition sync_calls (r : Render) : list service_call :=
  [ CallUnit (InitializeCrypto (seedPhrase r));
    CallBool (HealthCheck (selectedServer r));
    CallUnit (SyncWithServer (selectedServer r));
    CallUnit (SaveSyncSettings
                {| has_auto_sync := None; has_server_url := None;
                   has_custom_servers := None;
                   has_seed_phrase := Some (seedPhrase r);
                   has_sync_interval := None |}) ]
  ++ (if onSync_given r then [CallUnit OnSync] else []).

(** The health probes of a trace that answered [false]. *)
Definition unhealthy_probes (tr : list event) : list string :=
  flat_map (fun e => match e with
                     | BoolCall (HealthCheck s) (Returned false) => [s]
                     | _ => []
                     end) tr.

(** The settings objects handed to [saveSyncSettings], in order. *)
Definition writes_of (tr : list event) : list PartialSettings :=
  flat_map (fun e => match e with
                     | UnitCall (SaveSyncSettings obj) _ => [obj]
                     | _ => []
                     end) tr.

Definition save_failed_notification : Notification :=
  {| title := "Error"; message := "Failed to save settings";
     color := red; autoClose := None |}.

Definition server_exists_notification : Notification :=
  {| title := "Error"; message := "Server already exists";
     color := red; autoClose := None |}.

Definition server_added_notification : Notification :=
  {| title := "Success"; message := "Server added successfully";
     color := green; autoClose := None |}.

Definition add_failed_notification : Notification :=
  {| title := "Error"; message := "Failed to add server";
     color := red; autoClose := None |}.

Definition seed_failed_notification : Notification :=
  {| title := "Error"; message := "Failed to generate seed phrase";
     color := red; autoClose := None |}.

(** The values of the server [Select] are pairwise different. *)
Definition options_unique (st : State) : Prop :=
  NoDup (map value (serverOptions st)).

(** The stored settings name a server that is a default or one of their own
    custom servers. *)
Definition stored_selection_known (s : SyncSettingsType) : Prop :=
  In (server_url s) (map value DEFAULT_SERVERS)
  \/ In (server_url s) (custom_servers s).

(** When the validity flag is up, the URL field holds a text that parses, or
    nothing. *)
Definition flag_in_step (parses : string -> bool) (st : State) : Prop :=
  isValidUrl st = true ->
  parses (newServerUrl st) = true \/ newServerUrl st = "".

(** Every custom server is a text that parses, or the empty text. *)
Definition customs_parse_or_empty (parses : string -> bool) (st : State)
    : Prop :=
  Forall (fun u => parses u = true \/ u = "") (customServers st).

(** The storage service cannot be read. *)
Definition services_unreadable : Services :=
  {| answer_unit := fun _ _ => Returned tt;
     answer_bool := fun _ _ => Returned true;
     answer_settings := fun _ => Threw (ErrorObject "QuotaExceededError");
     answer_seed := fun _ => Returned "abandon ability able about" |}.

(** The crypto service cannot produce a seed phrase. *)
Definition services_no_entropy (cur : SyncSettingsType) : Services :=
  {| answer_unit := fun _ _ => Returned tt;
     answer_bool := fun _ _ => Returned true;
     answer_settings := fun _ => Returned cur;
     answer_seed := fun _ => Threw (ErrorObject "no entropy") |}.

(** A component with one custom server, which is selected. *)
Definition with_custom_server (url : string) : State :=
  {| seedPhrase := ""; autoSync := false; showNewSeedPhrase := false;
     newSeedPhrase := ""; syncing := false;
     selectedServer := url; customServers := [url];
     newServerUrl := ""; showAddServer := false; isValidUrl := false;
     onSync_given := false |}.

(** [p] writes the [syncing] flag once more, to lower it, in its last
    synchronous stretch, and ends without awaiting after that. *)
Fixpoint quiet_end {A : Type} (p : prog A) : Prop :=
  match p with
  | Ret _ | Throw _ => True
  | Do a k => sets_syncing a = false /\ quiet_end k
  | _ => False
  end.

Fixpoint releases {A : Type} (p : prog A) : Prop :=
  match p with
  | Ret _ | Throw _ => False
  | Do a k =>
      match a with
      | SetSyncing v => v = false /\ quiet_end k
      | _ => releases k
      end
  | AwaitUnit _ k => forall x, releases (k x)
  | AwaitBool _ k => forall x, releases (k x)
  | AwaitSettings k => forall x, releases (k x)
  | AwaitSeed k => forall x, releases (k x)
  end.

(** The flag is up exactly while a sync cycle is parked, and every parked
    cycle lowers it when it ends. *)
Definition flag_tracks_cycle (s : System) : Prop :=
  (forall t, In t (parked s) -> is_sync_cycle (source t) = true ->
             releases (rest t))
  /\ (cycles_in_flight s = 0%nat -> syncing (component s) = false).

(** An answer that ends a sync cycle: a service threw, or the health probe
    answered [false]. *)
Definition stops_cycle (e : event) : bool :=
  match e with
  | UnitCall _ (Threw _) | BoolCall _ (Threw _)
  | BoolCall _ (Returned false) => true
  | _ => false
  end.

(** ** Handlers and the selection, across awaits *)

(** [p] never writes the custom servers, and writes the selection only to
    set it to the first default server. *)
Fixpoint benign {A : Type} (p : prog A) : Prop :=
  match p with
  | Ret _ | Throw _ => True
  | Do a k =>
      match a with
      | SetCustomServers _ => False
      | SetSelectedServer v => v = DEFAULT_SERVER_0
      | _ => True
      end /\ benign k
  | AwaitUnit _ k => forall x, benign (k x)
  | AwaitBool _ k => forall x, benign (k x)
  | AwaitSettings k => forall x, benign (k x)
  | AwaitSeed k => forall x, benign (k x)
  end.

(** Whatever the services answer, [p] sets the selection to the first
    default server before it ends. *)
Fixpoint restores {A : Type} (p : prog A) : Prop :=
  match p with
  | Ret _ | Throw _ => False
  | Do a k =>
      match a with
      | SetSelectedServer v => v = DEFAULT_SERVER_0
      | _ => restores k
      end
  | AwaitUnit _ k => forall x, restores (k x)
  | AwaitBool _ k => forall x, restores (k x)
  | AwaitSettings k => forall x, restores (k x)
  | AwaitSeed k => forall x, restores (k x)
  end.

(** The steps of a component whose settings have been loaded: the user acts
    or a service answers; the mount effect does not run again. *)
Inductive user_step (parses : string -> bool) : System -> System -> Prop :=
| user_event (s : System) (ev : ui_event) :
    ev <> Mount ->
    enabled (component s) ev ->
    user_step parses s (dispatch parses s ev)
| user_answer (s s' : System) (before after : list Task) (t : Task)
    (a : answer) :
    parked s = before ++ t :: after ->
    deliver s before after t a = Some s' ->
    user_step parses s s'.

Inductive user_reachable (parses : string -> bool) (s0 : System)
    : System -> Prop :=
| user_reachable_start : user_reachable parses s0 s0
| user_reachable_step (s s' : System) :
    user_reachable parses s0 s -> user_step parses s s' ->
    user_reachable parses s0 s'.

(** The selection is a default or custom server, or a parked handler is
    about to make it one; the parked handlers do nothing else to the
    selection and the custom servers. *)
Definition selection_safe (s : System) : Prop :=
  (forall t, In t (parked s) -> benign (rest t))
  /\ (server_invariant (component s)
      \/ exists t, In t (parked s) /\ restores (rest t)).

(** A component at rest with the given state. *)
Definition system_at_rest (st : State) : System :=
  {| component := st; parked := []; seen := [] |}.

(** A service answers the handler that was parked first. *)
Definition answer_first (s : System) (a : answer) : System :=
  match parked s with
  | t :: after =>
      match deliver s [] after t a with
      | Some s' => s'
      | None => s
      end
  | [] => s
  end.

(** The selected custom server is removed and the storage service answers
    the two reads and the two writes that follow. *)
Definition system_after_removal : System :=
  answer_first
    (answer_first
       (answer_first
          (answer_first
             (dispatch starts_with_scheme
                (system_at_rest
                   (with_custom_server "https://notes.example.org"))
                (ClickRemoveServer "https://notes.example.org"))
             (SettingsAnswer (Returned stored_defaults)))
          (UnitAnswer (Returned tt)))
       (SettingsAnswer (Returned stored_defaults)))
    (UnitAnswer (Returned tt)).

(** ** A second mount *)

(** The component is unmounted and mounted again while handlers are parked.
    The new mount starts from fresh state cells; the handlers the old mount
    has parked still run on when their services answer. *)
Definition remount (s : System) : System :=
  {| component := initial_state (onSync_given (component s));
     parked := parked s;
     seen := seen s |}.

(** A cycle is under way, the component is mounted anew, and the user types
    the seed phrase again. *)
Definition system_second_mount : System :=
  dispatch starts_with_scheme (remount system_mid_sync)
    (TypeSeedPhrase "abandon ability able about").

(** * Properties *)

(** ** Proof tools *)

Lemma cons_in_middle {A : Type} (x y : A) (l pre post : list A) :
  x :: l = pre ++ y :: post ->
  (pre = [] /\ x = y /\ l = post)
  \/ exists pre', pre = x :: pre' /\ l = pre' ++ y :: post.
Proof.
  destruct pre as [|z pre']; cbn; intros H; injection H as -> ->.
  - left. auto.
  - right. exists pre'. auto.
Qed.

Lemma nil_in_middle {A : Type} (y : A) (pre post : list A) :
  [] = pre ++ y :: post -> False.
Proof. destruct pre; discriminate. Qed.

(** Case analysis on the next answer of a service. *)
Ltac next_answer :=
  match goal with
  | |- context [settle (answer_unit ?e ?h ?c)] =>
      let E := fresh "Hans" in
      destruct (answer_unit e h c) as [[]|?] eqn:E
  | |- context [settle (answer_bool ?e ?h ?c)] =>
      let E := fresh "Hans" in
      destruct (answer_bool e h c) as [[|]|?] eqn:E
  | |- context [settle (answer_settings ?e ?h)] =>
      let E := fresh "Hans" in
      destruct (answer_settings e h) as [?|?] eqn:E
  | |- context [settle (answer_seed ?e ?h)] =>
      let E := fresh "Hans" in
      destruct (answer_seed e h) as [?|?] eqn:E
  end; cbn.

Ltac all_answers := cbn; repeat next_answer.

(** ** The sync cycle *)

(** All the ways a sync cycle can go: the seed phrase is empty, or each
    awaited service returns or throws in turn. *)
Ltac sync_paths r :=
  unfold handleSync;
  let Hseed := fresh "Hseed" in
  let HonSync := fresh "HonSync" in
  destruct (String.eqb (seedPhrase r) "") eqn:Hseed;
  [ cbn | destruct (onSync_given r) eqn:HonSync; all_answers ].

(** Splits [tr = pre ++ e :: post], for an explicit [tr], into the places
    where [e] can sit. *)
Ltac place_in_trace H :=
  repeat
    (first
       [ apply nil_in_middle in H; contradiction
       | apply cons_in_middle in H;
         destruct H as [(-> & H & <-) | (? & -> & H)];
         [ try discriminate H | ] ]).

Lemma empty_seed_is_empty (s : string) : String.eqb s "" = true -> s = "".
Proof. apply String.eqb_eq. Qed.

(** C9. With an empty seed phrase, [handleSync] does one thing only: it shows
    the "Please enter a seed phrase" error.  No crypto initialisation, no
    health probe or sync request, no settings write happens, and no state
    cell is touched. *)
Theorem handleSync_empty_seed_only_reports (env : Services) (r : Render)
    (st : State) :
  seedPhrase r = "" ->
  run env (handleSync r) st [] =
    (Returned tt, st,
     [Did (NotificationsShow
             {| title := "Error"; message := "Please enter a seed phrase";
                color := red; autoClose := None |})]).
Proof.
  intros Hempty. unfold handleSync. rewrite Hempty. reflexivity.
Qed.

Lemma handleSync_empty_seed_only_reports_witness :
  seedPhrase (with_seed "") = ""
  /\ run (services_ok stored_defaults) (handleSync (with_seed ""))
         (with_seed "") [] =
       (Returned tt, with_seed "",
        [Did (NotificationsShow
                {| title := "Error"; message := "Please enter a seed phrase";
                   color := red; autoClose := None |})]).
Proof.
  split; [reflexivity | ].
  apply (handleSync_empty_seed_only_reports
           (services_ok stored_defaults) (with_seed "") (with_seed "")).
  reflexivity.
Defined.

(** C3. If the health probe of a sync cycle answers [false], the cycle
    fails: [syncWithServer] is not called, the settings save that follows a
    sync does not run, and the one notification shown is the red error
    that reads "Server ", the selected server, " is not healthy". *)
Theorem handleSync_unhealthy_server_fails (env : Services) (r : Render)
    (st : State) (server : string) :
  let tr := trace_of (run env (handleSync r) st []) in
  In (BoolCall (HealthCheck server) (Returned false)) tr ->
  server = selectedServer r
  /\ (forall s ans, ~ In (UnitCall (SyncWithServer s) ans) tr)
  /\ (forall obj ans, ~ In (UnitCall (SaveSyncSettings obj) ans) tr)
  /\ notifications_of tr =
       [ {| title := "Error";
            message := "Server " ++ selectedServer r ++ " is not healthy";
            color := red; autoClose := Some false |} ].
Proof.
  sync_paths r; unfold not_healthy; cbn; intros Hin;
    try (exfalso; clear - Hin; intuition discriminate).
  all: repeat split; try (intros ? ? H; clear - H; intuition discriminate).
  all: clear - Hin; intuition (try discriminate); congruence.
Qed.

Lemma handleSync_unhealthy_server_fails_witness :
  let env := services_unhealthy stored_defaults in
  let st := with_seed "abandon ability able about" in
  let tr := trace_of (run env (handleSync st) st []) in
  In (BoolCall (HealthCheck DEFAULT_SERVER_0) (Returned false)) tr
  /\ notifications_of tr =
       [ {| title := "Error";
            message := "Server https://notes-sync.0xgingi.com is not healthy";
            color := red; autoClose := Some false |} ].
Proof.
  cbv zeta. split.
  - vm_compute. tauto.
  - apply (handleSync_unhealthy_server_fails
             (services_unhealthy stored_defaults)
             (with_seed "abandon ability able about")
             (with_seed "abandon ability able about") DEFAULT_SERVER_0).
    vm_compute. tauto.
Defined.

(** C5. In every sync cycle, a call of [syncWithServer] comes after a health
    probe of the same, selected, server that has answered [true]. *)
Theorem handleSync_health_check_precedes_sync (env : Services) (r : Render)
    (st : State) (pre post : list event) (server : string)
    (ans : throwable unit) :
  trace_of (run env (handleSync r) st []) =
    pre ++ UnitCall (SyncWithServer server) ans :: post ->
  server = selectedServer r
  /\ In (BoolCall (HealthCheck server) (Returned true)) pre.
Proof.
  sync_paths r; cbn; intros Hsplit; place_in_trace Hsplit.
  all: injection Hsplit as -> _; split; [reflexivity | cbn; tauto].
Qed.

Lemma handleSync_health_check_precedes_sync_witness :
  let st := with_seed "abandon ability able about" in
  let pre :=
    [Did (SetSyncing true); Did (ConsoleLog "Starting sync process...");
     UnitCall (InitializeCrypto "abandon ability able about") (Returned tt);
     Did (ConsoleLog "Crypto initialized");
     BoolCall (HealthCheck DEFAULT_SERVER_0) (Returned true);
     Did (ConsoleLog "Server health check passed")] in
  let post :=
    [Did (ConsoleLog "Sync completed");
     UnitCall
       (SaveSyncSettings
          {| has_auto_sync := None; has_server_url := None;
             has_custom_servers := None;
             has_seed_phrase := Some "abandon ability able about";
             has_sync_interval := None |}) (Returned tt);
     Did (ConsoleLog "Settings saved"); UnitCall OnSync (Returned tt);
     Did (NotificationsShow success_notification);
     Did (SetSyncing false)] in
  trace_of (run (services_ok stored_defaults) (handleSync st) st []) =
    pre ++ UnitCall (SyncWithServer DEFAULT_SERVER_0) (Returned tt) :: post
  /\ DEFAULT_SERVER_0 = selectedServer st
  /\ In (BoolCall (HealthCheck DEFAULT_SERVER_0) (Returned true)) pre.
Proof.
  cbv zeta. split.
  - reflexivity.
  - eapply (handleSync_health_check_precedes_sync
              (services_ok stored_defaults)
              (with_seed "abandon ability able about")
              (with_seed "abandon ability able about")).
    reflexivity.
Defined.

(** C8. Every invocation of [handleSync] comes to an end: it returns, whatever
    the services answer, and the [syncing] flag is then [false].  On the
    paths that start a cycle the [finally] clause resets the flag; on the
    empty-seed path the flag is left as it was, which is [false] whenever
    the Sync Now button could be pressed. *)
Theorem handleSync_ends_not_syncing (env : Services) (r : Render) (st : State) :
  (seedPhrase r = "" -> syncing st = false) ->
  exit_of (run env (handleSync r) st []) = Returned tt
  /\ syncing (state_of (run env (handleSync r) st [])) = false.
Proof.
  intros Hidle. sync_paths r; try (split; reflexivity).
  split; [reflexivity | ]. apply Hidle, empty_seed_is_empty, Hseed.
Qed.

Lemma handleSync_ends_not_syncing_witness :
  let st := with_seed "abandon ability able about" in
  (seedPhrase st = "" -> syncing st = false)
  /\ exit_of (run (services_offline stored_defaults) (handleSync st) st []) =
       Returned tt
  /\ syncing (state_of (run (services_offline stored_defaults)
                            (handleSync st) st [])) = false.
Proof.
  cbv zeta. split.
  - intros _. reflexivity.
  - apply (handleSync_ends_not_syncing (services_offline stored_defaults)
             (with_seed "abandon ability able about")
             (with_seed "abandon ability able about")).
    intros _. reflexivity.
Defined.

(** C6 (as stated, refuted).  When [syncWithServer] rejects with the fetch
    error, the notification shown to the user carries that very message. *)
Lemma handleSync_shows_raw_message :
  ~ never_shows_raw
      (trace_of (run (services_offline stored_defaults)
                     (handleSync (with_seed "abandon ability able about"))
                     (with_seed "abandon ability able about") [])).
Proof.
  intros Hnever.
  apply (Hnever {| title := "Error"; message := "Failed to fetch";
                   color := red; autoClose := Some false |}
                "Failed to fetch").
  - cbn. tauto.
  - cbn. tauto.
  - reflexivity.
Qed.

(** C6 (amended).  A sync cycle shows exactly one notification, and a cycle
    that fails shows a red "Error" whose message is the reason: the request
    for a seed phrase when the seed phrase is empty; "Server ", the selected
    server, " is not healthy" when the health probe answered [false]; the
    message of the [Error] a service threw, taken as it is; the fixed text
    "Failed to sync notes" when what a service threw is not an [Error].
    What was thrown is itself written to the console after "Sync error:".
    Success is shown only when nothing of this happened. *)
Theorem handleSync_failure_is_reported (env : Services) (r : Render)
    (st : State) :
  let tr := trace_of (run env (handleSync r) st []) in
  (seedPhrase r = "" ->
   notifications_of tr =
     [ {| title := "Error"; message := "Please enter a seed phrase";
          color := red; autoClose := None |} ])
  /\ (forall s, In s (unhealthy_probes tr) ->
      notifications_of tr =
        [ {| title := "Error";
             message := "Server " ++ selectedServer r ++ " is not healthy";
             color := red; autoClose := Some false |} ]
      /\ In (Did (ConsoleError "Sync error:"
                    (ErrorObject
                       ("Server " ++ selectedServer r ++ " is not healthy"))))
            tr)
  /\ (forall m, In (ErrorObject m) (raw_errors tr) ->
      notifications_of tr =
        [ {| title := "Error"; message := m;
             color := red; autoClose := Some false |} ]
      /\ In (Did (ConsoleError "Sync error:" (ErrorObject m))) tr)
  /\ (forall v, In (OtherValue v) (raw_errors tr) ->
      notifications_of tr =
        [ {| title := "Error"; message := "Failed to sync notes";
             color := red; autoClose := Some false |} ]
      /\ In (Did (ConsoleError "Sync error:" (OtherValue v))) tr)
  /\ (notifications_of tr = [success_notification]
      \/ exists n, notifications_of tr = [n]
                   /\ title n = "Error" /\ color n = red)
  /\ (In success_notification (notifications_of tr) ->
      seedPhrase r <> "" /\ raw_errors tr = [] /\ unhealthy_probes tr = []).
Proof.
  assert (Hnonempty : String.eqb (seedPhrase r) "" = false ->
                      seedPhrase r <> "").
  { intros Hf He. rewrite He in Hf. discriminate Hf. }
  unfold success_notification.
  sync_paths r; unfold not_healthy; cbn;
    (split; [intros Hempty;
             first [reflexivity
                   | exfalso; exact (Hnonempty eq_refl Hempty)] | ]);
    (split; [intros s Hin; cbn in Hin;
             first [contradiction
                   | split; [reflexivity | cbn; tauto]] | ]);
    (split; [intros m Hin; cbn in Hin;
             first [contradiction
                   | destruct Hin as [Heq | []];
                     first [discriminate Heq
                           | injection Heq as ->; subst;
                             split; [reflexivity | cbn; tauto]
                           | subst; split; [reflexivity | cbn; tauto]]] | ]);
    (split; [intros v Hin; cbn in Hin;
             first [contradiction
                   | destruct Hin as [Heq | []];
                     first [discriminate Heq
                           | subst; split; [reflexivity | cbn; tauto]]] | ]);
    (split; [first [left; reflexivity
                   | right; eexists; split; [reflexivity | split; reflexivity]]
            | ]);
    intros Hin; cbn in Hin;
    first [ destruct Hin as [Heq | []]; discriminate Heq
          | split; [exact (Hnonempty eq_refl) | split; reflexivity] ].
Qed.

Lemma handleSync_failure_is_reported_witness :
  let st := with_seed "abandon ability able about" in
  let tr := trace_of (run (services_offline stored_defaults)
                          (handleSync st) st []) in
  In (ErrorObject "Failed to fetch") (raw_errors tr)
  /\ notifications_of tr =
       [ {| title := "Error"; message := "Failed to fetch";
            color := red; autoClose := Some false |} ]
  /\ In (Did (ConsoleError "Sync error:" (ErrorObject "Failed to fetch"))) tr.
Proof.
  cbv zeta.
  assert (Hthrown :
            In (ErrorObject "Failed to fetch")
               (raw_errors
                  (trace_of (run (services_offline stored_defaults)
                                 (handleSync
                                    (with_seed "abandon ability able about"))
                                 (with_seed "abandon ability able about")
                                 [])))) by (left; reflexivity).
  split; [exact Hthrown | ].
  exact (proj1 (proj2 (proj2
           (handleSync_failure_is_reported (services_offline stored_defaults)
              (with_seed "abandon ability able about")
              (with_seed "abandon ability able about"))))
           "Failed to fetch" Hthrown).
Defined.

(** ** Saving settings *)

(** What [saveSettings] merges.  Given the stored settings, it hands the
    storage service one object with all five keys: a key named in the update
    carries the update's value, a key not named carries the value the
    component state had in the render of the closure, and [sync_interval] is
    the stored one whatever the update says.  Nothing else is written. *)
Theorem saveSettings_persists_merged_object (env : Services) (r : Render)
    (st : State) (past : list event) (updates : PartialSettings)
    (cur : SyncSettingsType) :
  answer_settings env past = Returned cur ->
  exists obj ans rest,
    trace_of (run env (saveSettings r updates) st past) =
      past ++ SettingsCall (Returned cur)
           :: UnitCall (SaveSyncSettings obj) ans :: rest
    /\ (forall o a, ~ In (UnitCall (SaveSyncSettings o) a) rest)
    /\ field_merged (has_auto_sync updates) (autoSync r) (has_auto_sync obj)
    /\ field_merged (has_server_url updates) (selectedServer r)
         (has_server_url obj)
    /\ field_merged (has_custom_servers updates) (customServers r)
         (has_custom_servers obj)
    /\ field_merged (has_seed_phrase updates) (seedPhrase r)
         (has_seed_phrase obj)
    /\ has_sync_interval obj = Some (sync_interval cur).
Proof.
  intros Hcur. unfold saveSettings. cbn. rewrite Hcur. cbn.
  match goal with
  | |- context [answer_unit ?e ?h ?c] =>
      destruct (answer_unit e h c) as [[]|t] eqn:Hsave
  end; cbn.
  - eexists; exists (Returned tt), [].
    split; [rewrite <- app_assoc; reflexivity | ].
    split; [intros o a []| ].
    destruct updates as [[a|] [u|] [c|] [p|] i]; cbn; repeat split.
  - eexists; exists (Threw t); eexists.
    split; [rewrite <- !app_assoc; reflexivity | ].
    split; [intros o a H; cbn in H; intuition discriminate | ].
    destruct updates as [[a|] [u|] [c|] [p|] i]; cbn; repeat split.
Qed.

Lemma saveSettings_persists_merged_object_witness :
  let st := with_seed "abandon ability able about" in
  let updates :=
    {| has_auto_sync := Some true; has_server_url := None;
       has_custom_servers := None; has_seed_phrase := None;
       has_sync_interval := Some 5%Z |} in
  answer_settings (services_ok stored_defaults) [] = Returned stored_defaults
  /\ exists obj ans rest,
       trace_of (run (services_ok stored_defaults) (saveSettings st updates)
                     st []) =
         [] ++ SettingsCall (Returned stored_defaults)
            :: UnitCall (SaveSyncSettings obj) ans :: rest
       /\ (forall o a, ~ In (UnitCall (SaveSyncSettings o) a) rest)
       /\ field_merged (has_auto_sync updates) (autoSync st)
            (has_auto_sync obj)
       /\ field_merged (has_server_url updates) (selectedServer st)
            (has_server_url obj)
       /\ field_merged (has_custom_servers updates) (customServers st)
            (has_custom_servers obj)
       /\ field_merged (has_seed_phrase updates) (seedPhrase st)
            (has_seed_phrase obj)
       /\ has_sync_interval obj = Some (sync_interval stored_defaults).
Proof.
  cbv zeta. split; [reflexivity | ].
  apply (saveSettings_persists_merged_object (services_ok stored_defaults)
           (with_seed "abandon ability able about")
           (with_seed "abandon ability able about") []).
  reflexivity.
Defined.

(** When the storage service cannot hand out the stored settings, nothing is
    written and the user is told so. *)
Lemma saveSettings_read_failure (env : Services) (r : Render) (st : State)
    (past : list event) (updates : PartialSettings) (t : thrown) :
  answer_settings env past = Threw t ->
  run env (saveSettings r updates) st past =
    (Returned tt, st,
     past ++ [SettingsCall (Threw t);
              Did (NotificationsShow
                     {| title := "Error"; message := "Failed to save settings";
                        color := red; autoClose := None |})]).
Proof.
  intros Hcur. unfold saveSettings. cbn. rewrite Hcur. cbn.
  rewrite <- app_assoc. reflexivity.
Qed.

(** [saveSettings] never throws and never touches the component state. *)
Lemma saveSettings_returns (env : Services) (r : Render) (st : State)
    (past : list event) (updates : PartialSettings) :
  exit_of (run env (saveSettings r updates) st past) = Returned tt
  /\ state_of (run env (saveSettings r updates) st past) = st.
Proof.
  unfold saveSettings. all_answers; split; reflexivity.
Qed.

(** The render of a handler outlives the state it was made from: when the
    selected custom server is removed, the second [saveSettings] of
    [handleRemoveServer] still sees the list of the render and writes the
    removed server back. *)
Example handleRemoveServer_second_save :
  let st :=
    {| seedPhrase := ""; autoSync := false; showNewSeedPhrase := false;
       newSeedPhrase := ""; syncing := false;
       selectedServer := "https://notes.example.org";
       customServers := ["https://notes.example.org"];
       newServerUrl := ""; showAddServer := false; isValidUrl := true;
       onSync_given := false |} in
  let out := run (services_ok stored_defaults)
                 (handleRemoveServer st "https://notes.example.org") st [] in
  customServers (state_of out) = []
  /\ selectedServer (state_of out) = DEFAULT_SERVER_0
  /\ last (trace_of out) (Did (ConsoleLog "")) =
       UnitCall
         (SaveSyncSettings
            {| has_auto_sync := Some false;
               has_server_url := Some DEFAULT_SERVER_0;
               has_custom_servers := Some ["https://notes.example.org"];
               has_seed_phrase := Some "";
               has_sync_interval := Some 300%Z |})
         (Returned tt).
Proof. repeat split. Qed.

(** C10. A change of the seed-phrase field stores the new text, whatever it
    is: the handler sets the state cell and, once the stored settings have
    been read, writes an object whose [seed_phrase] is the new text.  The
    handler validates nothing and starts no crypto initialisation, health
    probe or sync before that write. *)
Theorem onSeedPhraseChange_persists (env : Services) (r : Render) (st : State)
    (v : string) (cur : SyncSettingsType) :
  answer_settings env [Did (SetSeedPhrase v)] = Returned cur ->
  seedPhrase (state_of (run env (onSeedPhraseChange r v) st [])) = v
  /\ exists obj ans rest,
       trace_of (run env (onSeedPhraseChange r v) st []) =
         [Did (SetSeedPhrase v); SettingsCall (Returned cur);
          UnitCall (SaveSyncSettings obj) ans] ++ rest
       /\ has_seed_phrase obj = Some v.
Proof.
  intros Hcur. unfold onSeedPhraseChange, saveSettings. cbn.
  rewrite Hcur. cbn. next_answer.
  - split; [reflexivity | ]. eexists; exists (Returned tt), [].
    split; reflexivity.
  - split; [reflexivity | ]. eexists; exists (Threw t); eexists.
    split; reflexivity.
Qed.

Lemma onSeedPhraseChange_persists_witness :
  let st := with_seed "abandon ability able about" in
  answer_settings (services_ok stored_defaults) [Did (SetSeedPhrase "aban")] =
    Returned stored_defaults
  /\ seedPhrase (state_of (run (services_ok stored_defaults)
                               (onSeedPhraseChange st "aban") st [])) = "aban"
  /\ exists obj ans rest,
       trace_of (run (services_ok stored_defaults)
                     (onSeedPhraseChange st "aban") st []) =
         [Did (SetSeedPhrase "aban"); SettingsCall (Returned stored_defaults);
          UnitCall (SaveSyncSettings obj) ans] ++ rest
       /\ has_seed_phrase obj = Some "aban".
Proof.
  cbv zeta. split; [reflexivity | ].
  apply (onSeedPhraseChange_persists (services_ok stored_defaults)
           (with_seed "abandon ability able about")
           (with_seed "abandon ability able about") "aban" stored_defaults).
  reflexivity.
Defined.

(** ** Server selection *)

Lemma serverOptions_values (st : State) :
  map value (serverOptions st) =
    map value DEFAULT_SERVERS ++ customServers st.
Proof.
  unfold serverOptions. rewrite map_app, map_map. cbn [value].
  rewrite map_id. reflexivity.
Qed.

Lemma includes_In (l : list string) (s : string) :
  includes l s = true <-> In s l.
Proof.
  unfold includes. rewrite existsb_exists. split.
  - intros (x & Hx & Heq). apply String.eqb_eq in Heq. subst. exact Hx.
  - intros Hin. exists s. split; [exact Hin | apply String.eqb_refl].
Qed.

Lemma is_default_server_In (url : string) :
  is_default_server url = true <-> In url (map value DEFAULT_SERVERS).
Proof.
  unfold is_default_server. rewrite existsb_exists, in_map_iff. split.
  - intros (x & Hx & Heq). apply String.eqb_eq in Heq. exists x. auto.
  - intros (x & Heq & Hx). exists x. split; [exact Hx | ].
    rewrite Heq. apply String.eqb_refl.
Qed.

Lemma kept_after_removal (serverUrl s : string) (l : list string) :
  String.eqb s serverUrl = false -> In s l ->
  In s (filter (fun url => negb (String.eqb url serverUrl)) l).
Proof.
  intros Hne Hin. apply filter_In. split; [exact Hin | ].
  rewrite Hne. reflexivity.
Qed.

(** What each of the three handlers leaves in the two state cells. *)
Lemma handleAddServer_state (env : Services) (st : State) :
  let st' := state_of (run env (handleAddServer st) st []) in
  if isValidUrl st
     && negb (includes (customServers st) (newServerUrl st)
              || is_default_server (newServerUrl st))
  then customServers st' = customServers st ++ [newServerUrl st]
       /\ selectedServer st' = newServerUrl st
  else st' = st.
Proof.
  unfold handleAddServer, saveSettings.
  destruct (isValidUrl st); [ | reflexivity].
  destruct (includes (customServers st) (newServerUrl st)
            || is_default_server (newServerUrl st))%bool; [reflexivity | ].
  all_answers; split; reflexivity.
Qed.

Lemma handleRemoveServer_state (env : Services) (st : State)
    (serverUrl : string) :
  let st' := state_of (run env (handleRemoveServer st serverUrl) st []) in
  customServers st' =
    filter (fun url => negb (String.eqb url serverUrl)) (customServers st)
  /\ selectedServer st' =
       if String.eqb (selectedServer st) serverUrl then DEFAULT_SERVER_0
       else selectedServer st.
Proof.
  unfold handleRemoveServer, saveSettings.
  destruct (String.eqb (selectedServer st) serverUrl);
    all_answers; split; reflexivity.
Qed.

Lemma handleServerChange_state (env : Services) (st : State)
    (v : option string) :
  let st' := state_of (run env (handleServerChange st v) st []) in
  customServers st' = customServers st
  /\ selectedServer st' =
       match v with
       | Some s => if String.eqb s "" then selectedServer st else s
       | None => selectedServer st
       end.
Proof.
  unfold handleServerChange, saveSettings, truthy.
  destruct v as [s|]; [ | split; reflexivity].
  destruct (String.eqb s ""); all_answers; split; reflexivity.
Qed.

(** C1. Adding a server, removing a server and changing the selection each
    keep the selected server among the default servers and the custom
    servers, whatever the storage service answers. *)
Theorem server_invariant_preserved (env : Services) (st : State)
    (op : server_op) :
  server_invariant st -> offered st op ->
  server_invariant (state_of (invoke env (server_handler op) st)).
Proof.
  intros Hinv Hoffered. unfold server_invariant, invoke in *.
  destruct op as [ | serverUrl | v]; cbn [server_handler].
  - pose proof (handleAddServer_state env st) as Hst. cbv zeta in Hst.
    destruct (isValidUrl st
              && negb (includes (customServers st) (newServerUrl st)
                       || is_default_server (newServerUrl st))).
    + destruct Hst as [-> ->]. right. apply in_or_app. right. left.
      reflexivity.
    + rewrite Hst. exact Hinv.
  - destruct (handleRemoveServer_state env st serverUrl) as [Hc Hs].
    rewrite Hc, Hs.
    destruct (String.eqb (selectedServer st) serverUrl) eqn:Hsel.
    + left. cbn. tauto.
    + destruct Hinv as [Hd | Hcu]; [left; exact Hd | right].
      apply kept_after_removal; assumption.
  - destruct (handleServerChange_state env st v) as [Hc Hs].
    rewrite Hc, Hs. destruct v as [s|]; [ | exact Hinv].
    destruct (String.eqb s ""); [exact Hinv | ].
    unfold offered in Hoffered. rewrite serverOptions_values in Hoffered.
    apply in_app_or in Hoffered. exact Hoffered.
Qed.

Lemma server_invariant_preserved_witness :
  let st := initial_state false in
  server_invariant st
  /\ offered st (ChangeServer (Some "http://localhost:3222"))
  /\ server_invariant
       (state_of (invoke (services_ok stored_defaults)
                         (server_handler
                            (ChangeServer (Some "http://localhost:3222")))
                         st)).
Proof.
  cbv zeta.
  assert (Hinv : server_invariant (initial_state false))
    by (left; cbn; tauto).
  assert (Hoff : offered (initial_state false)
                   (ChangeServer (Some "http://localhost:3222")))
    by (cbn; tauto).
  split; [exact Hinv | split; [exact Hoff | ]].
  exact (server_invariant_preserved (services_ok stored_defaults)
           (initial_state false)
           (ChangeServer (Some "http://localhost:3222")) Hinv Hoff).
Defined.

(** C4 (the code at the failing input).  The user removes the custom server
    that is selected, and the stored settings can be read.  The first
    [saveSettings] names the custom servers and writes the list as it now
    is.  The second names only [server_url]; the custom servers, which it
    does not name, do not keep their current value: it writes the list of
    the render, with the removed server back in it, beside a live state and
    a first write that no longer have it. *)
Theorem saveSettings_unnamed_field_is_stale (env : Services) (st : State)
    (serverUrl : string) :
  selectedServer st = serverUrl ->
  In serverUrl (customServers st) ->
  (forall past, exists cur, answer_settings env past = Returned cur) ->
  let out := run env (handleRemoveServer st serverUrl) st [] in
  ~ In serverUrl (customServers (state_of out))
  /\ exists first second stale,
       writes_of (trace_of out) = [first; second]
       /\ has_custom_servers first = Some (customServers (state_of out))
       /\ has_server_url second = Some DEFAULT_SERVER_0
       /\ has_custom_servers second = Some stale
       /\ In serverUrl stale
       /\ stale <> customServers (state_of out).
Proof.
  intros Hsel Hlisted Hreads. cbv zeta.
  destruct (handleRemoveServer_state env st serverUrl) as [Hlist _].
  assert (Hgone : ~ In serverUrl (customServers
                     (state_of (run env (handleRemoveServer st serverUrl)
                                    st [])))).
  { rewrite Hlist. intros Hin. apply filter_In in Hin.
    destruct Hin as [_ Hne]. rewrite String.eqb_refl in Hne.
    discriminate Hne. }
  split; [exact Hgone | ].
  assert (Hwrites : exists first second,
            writes_of (trace_of (run env (handleRemoveServer st serverUrl)
                                     st [])) = [first; second]
            /\ has_custom_servers first =
                 Some (filter (fun url => negb (String.eqb url serverUrl))
                              (customServers st))
            /\ has_server_url second = Some DEFAULT_SERVER_0
            /\ has_custom_servers second = Some (customServers st)).
  { clear Hgone Hlist. unfold handleRemoveServer, saveSettings.
    rewrite Hsel, String.eqb_refl. cbn.
    match goal with
    | |- context [answer_settings env ?h] =>
        destruct (Hreads h) as [cur1 Hcur1]; rewrite Hcur1
    end.
    cbn. next_answer;
      match goal with
      | |- context [answer_settings env ?h] =>
          destruct (Hreads h) as [cur2 Hcur2]; rewrite Hcur2
      end;
      cbn; next_answer; eexists; eexists; repeat split. }
  destruct Hwrites as (first & second & Hw & Hfirst & Hurl & Hsecond).
  exists first, second, (customServers st).
  split; [exact Hw | ]. split; [rewrite Hlist; exact Hfirst | ].
  split; [exact Hurl | ]. split; [exact Hsecond | ].
  split; [exact Hlisted | ].
  intros Heq. apply Hgone. rewrite <- Heq. exact Hlisted.
Qed.

Lemma saveSettings_unnamed_field_is_stale_witness :
  let st := with_custom_server "https://notes.example.org" in
  selectedServer st = "https://notes.example.org"
  /\ In "https://notes.example.org" (customServers st)
  /\ (forall past, exists cur,
        answer_settings (services_ok stored_defaults) past = Returned cur)
  /\ customServers
       (state_of (run (services_ok stored_defaults)
                      (handleRemoveServer st "https://notes.example.org")
                      st [])) = []
  /\ exists first second stale,
       writes_of (trace_of (run (services_ok stored_defaults)
                                (handleRemoveServer st
                                   "https://notes.example.org") st [])) =
         [first; second]
       /\ has_custom_servers first =
            Some (customServers
                    (state_of (run (services_ok stored_defaults)
                                   (handleRemoveServer st
                                      "https://notes.example.org") st [])))
       /\ has_server_url second = Some DEFAULT_SERVER_0
       /\ has_custom_servers second = Some stale
       /\ In "https://notes.example.org" stale
       /\ stale <> customServers
                     (state_of (run (services_ok stored_defaults)
                                    (handleRemoveServer st
                                       "https://notes.example.org") st [])).
Proof.
  cbv zeta. split; [reflexivity | ].
  split; [left; reflexivity | ].
  split; [intros past; exists stored_defaults; reflexivity | ].
  split; [reflexivity | ].
  refine (proj2 (saveSettings_unnamed_field_is_stale
                   (services_ok stored_defaults)
                   (with_custom_server "https://notes.example.org")
                   "https://notes.example.org" _ _ _)).
  - reflexivity.
  - left. reflexivity.
  - intros past. exists stored_defaults. reflexivity.
Defined.

(** ** Adding a server *)

(** [handleUrlChange] leaves the validity flag in step with the text of the
    URL field. *)
Lemma handleUrlChange_state (parses : string -> bool) (env : Services)
    (st : State) (v : string) :
  let st' := state_of (run env (handleUrlChange parses v) st []) in
  newServerUrl st' = v /\ isValidUrl st' = validateUrl parses v
  /\ customServers st' = customServers st
  /\ selectedServer st' = selectedServer st.
Proof. cbn. repeat split. Qed.

(** As long as the flag is in step with the URL field, [handleAddServer]
    adds the text exactly when it parses and is neither a custom nor a
    default server, and otherwise leaves the state alone. *)
Lemma handleAddServer_with_current_flag (parses : string -> bool)
    (env : Services) (st : State) :
  isValidUrl st = validateUrl parses (newServerUrl st) ->
  let st' := state_of (run env (handleAddServer st) st []) in
  if parses (newServerUrl st)
     && negb (includes (customServers st) (newServerUrl st)
              || is_default_server (newServerUrl st))
  then customServers st' = customServers st ++ [newServerUrl st]
       /\ selectedServer st' = newServerUrl st
  else st' = st.
Proof.
  intros Hflag. pose proof (handleAddServer_state env st) as Hst.
  cbv zeta in *. rewrite Hflag in Hst. unfold validateUrl in Hst.
  destruct (parses (newServerUrl st)); exact Hst.
Qed.

(** An accepted server clears the URL field and leaves the flag set. *)
Lemma handleAddServer_leaves_flag (env : Services) (st : State) :
  isValidUrl st = true ->
  includes (customServers st) (newServerUrl st) = false ->
  is_default_server (newServerUrl st) = false ->
  let st' := state_of (run env (handleAddServer st) st []) in
  newServerUrl st' = "" /\ isValidUrl st' = true.
Proof.
  intros Hflag Hcustom Hdefault. unfold handleAddServer, saveSettings.
  rewrite Hflag, Hcustom, Hdefault.
  all_answers; (split; [reflexivity | exact Hflag]).
Qed.

(** C2 (the code at the failing input).  On a fresh component the user types
    a URL that parses, adds it, and presses Add Server once more.  The first
    add clears the field but leaves [isValidUrl] set, so the second add puts
    the empty string, which does not parse, among the custom servers and
    selects it. *)
Theorem handleAddServer_accepts_cleared_field (parses : string -> bool)
    (env : Services) (with_onSync : bool) :
  parses "https://example.org" = true ->
  parses "" = false ->
  let st1 := state_of (run env (handleUrlChange parses "https://example.org")
                           (initial_state with_onSync) []) in
  let st2 := state_of (run env (handleAddServer st1) st1 []) in
  let st3 := state_of (run env (handleAddServer st2) st2 []) in
  customServers st2 = ["https://example.org"]
  /\ newServerUrl st2 = "" /\ isValidUrl st2 = true
  /\ validateUrl parses (newServerUrl st2) = false
  /\ customServers st3 = ["https://example.org"; ""]
  /\ selectedServer st3 = "".
Proof.
  intros Hurl Hempty. cbv zeta. unfold handleUrlChange.
  replace (validateUrl parses "https://example.org") with true
    by (unfold validateUrl; rewrite Hurl; reflexivity).
  cbn [bind perform run apply_action state_of fst snd].
  match goal with
  | |- context [run env (handleAddServer ?s) ?s []] => set (st1 := s)
  end.
  pose proof (handleAddServer_state env st1) as H2. cbv zeta in H2.
  change (isValidUrl st1) with true in H2.
  change (includes (customServers st1) (newServerUrl st1)) with false in H2.
  change (is_default_server (newServerUrl st1)) with false in H2.
  cbn [andb orb negb] in H2. destruct H2 as [Hc2 Hs2].
  destruct (handleAddServer_leaves_flag env st1) as [Hu2 Hf2];
    [reflexivity | reflexivity | reflexivity | ].
  set (st2 := state_of (run env (handleAddServer st1) st1 [])) in *.
  change (customServers st1 ++ [newServerUrl st1])
    with ["https://example.org"] in Hc2.
  pose proof (handleAddServer_state env st2) as H3. cbv zeta in H3.
  rewrite Hf2, Hu2, Hc2 in H3.
  change (includes ["https://example.org"] "") with false in H3.
  change (is_default_server "") with false in H3.
  cbn [andb orb negb app] in H3. destruct H3 as [Hc3 Hs3].
  repeat split; try assumption.
  rewrite Hu2. unfold validateUrl. rewrite Hempty. reflexivity.
Qed.

Lemma handleAddServer_accepts_cleared_field_witness :
  starts_with_scheme "https://example.org" = true
  /\ starts_with_scheme "" = false
  /\ let st1 :=
       state_of (run (services_ok stored_defaults)
                     (handleUrlChange starts_with_scheme "https://example.org")
                     (initial_state false) []) in
     let st2 := state_of (run (services_ok stored_defaults)
                              (handleAddServer st1) st1 []) in
     let st3 := state_of (run (services_ok stored_defaults)
                              (handleAddServer st2) st2 []) in
     customServers st2 = ["https://example.org"]
     /\ newServerUrl st2 = "" /\ isValidUrl st2 = true
     /\ validateUrl starts_with_scheme (newServerUrl st2) = false
     /\ customServers st3 = ["https://example.org"; ""]
     /\ selectedServer st3 = "".
Proof.
  split; [reflexivity | split; [reflexivity | ]].
  apply (handleAddServer_accepts_cleared_field starts_with_scheme
           (services_ok stored_defaults) false); reflexivity.
Defined.

(** ** One sync cycle at a time *)

Lemma apply_action_keeps_syncing (a : action) (st : State) :
  sets_syncing a = false -> syncing (apply_action a st) = syncing st.
Proof. destruct a; cbn; intros H; try discriminate H; reflexivity. Qed.

Lemma flag_free_bind {A B : Type} (p : prog A) (f : A -> prog B) :
  flag_free p -> (forall a, flag_free (f a)) -> flag_free (bind p f).
Proof.
  intros Hp Hf. induction p as [a | t | a k IH | c k IH | c k IH | k IH | k IH];
    cbn in *; auto.
  destruct Hp as [Ha Hk]. split; auto.
Qed.

Lemma flag_free_try_catch {A : Type} (p : prog A) (h : thrown -> prog A) :
  flag_free p -> (forall t, flag_free (h t)) -> flag_free (try_catch p h).
Proof.
  intros Hp Hh. induction p as [a | t | a k IH | c k IH | c k IH | k IH | k IH];
    cbn in *; auto.
  destruct Hp as [Ha Hk]. split; auto.
Qed.

Lemma flag_free_settle {A : Type} (x : throwable A) : flag_free (settle x).
Proof. destruct x; exact I. Qed.

Lemma flag_free_perform (a : action) :
  sets_syncing a = false -> flag_free (perform a).
Proof. intros H. split; [exact H | exact I]. Qed.

(** Decomposes a goal [flag_free p] along the shape of [p]. *)
Ltac flags :=
  repeat
    match goal with
    | |- flag_free (bind _ _) => apply flag_free_bind
    | |- flag_free (try_catch _ _) => apply flag_free_try_catch
    | |- flag_free (settle _) => apply flag_free_settle
    | |- flag_free (perform _) => apply flag_free_perform; reflexivity
    | |- flag_free (notifications_show _) =>
        apply flag_free_perform; reflexivity
    | |- flag_free (await_unit _) => intro; apply flag_free_settle
    | |- flag_free (await_bool _) => intro; apply flag_free_settle
    | |- flag_free getSyncSettings => intro; apply flag_free_settle
    | |- flag_free CryptoService_generateNewSeedPhrase =>
        intro; apply flag_free_settle
    | |- flag_free (Do _ _) => split; [reflexivity | ]
    | |- flag_free (AwaitUnit _ _) => intro
    | |- flag_free (AwaitBool _ _) => intro
    | |- flag_free (Ret _) => exact I
    | |- flag_free (Throw _) => exact I
    | |- flag_free (if ?b then _ else _) => destruct b
    | |- flag_free (match ?v with Some _ => _ | None => _ end) => destruct v
    | |- flag_free (let _ := _ in _) => cbv zeta
    | |- forall _, _ => intro
    end.

Lemma flag_free_saveSettings (r : Render) (updates : PartialSettings) :
  flag_free (saveSettings r updates).
Proof. unfold saveSettings. flags. Qed.

(** Of all the handlers, only [handleSync] writes the [syncing] flag. *)
Lemma flag_free_handlers (parses : string -> bool) (ev : ui_event)
    (r : Render) :
  is_sync_cycle ev = false -> flag_free (handler_of parses ev r).
Proof.
  intros Hother. destruct ev; try discriminate Hother; cbn [handler_of];
    unfold loadSettings, handleUrlChange, handleKeyPress, handleAddServer,
      handleRemoveServer, handleServerChange, onSeedPhraseChange,
      onAutoSyncChange, generateNewSeedPhrase;
    flags; try apply flag_free_saveSettings.
Qed.

Lemma holds_flag_until_finally {A : Type} (p : prog A) :
  flag_free p -> holds_flag (try_finally p (perform (SetSyncing false))).
Proof.
  induction p as [a | t | a k IH | c k IH | c k IH | k IH | k IH];
    cbn; intros Hp; auto.
  destruct Hp as [Ha Hk]. rewrite Ha. auto.
Qed.

Lemma advance_flag_free {A : Type} (p p' : prog A) (st st' : State)
    (past tr : list event) :
  flag_free p -> advance p st past = (p', st', tr) ->
  syncing st' = syncing st /\ flag_free p'.
Proof.
  revert st past.
  induction p as [a | t | a k IH | c k IH | c k IH | k IH | k IH];
    cbn; intros st past Hp Hadv;
    try (injection Hadv as <- <- <-; split; [reflexivity | exact Hp]).
  destruct Hp as [Ha Hk]. destruct (IH _ _ Hk Hadv) as [Hs Hf].
  split; [ | exact Hf]. rewrite Hs. apply apply_action_keeps_syncing, Ha.
Qed.

Lemma advance_runs_out {A : Type} (p p' : prog A) (st st' : State)
    (past tr : list event) :
  runs_out p -> advance p st past = (p', st', tr) -> suspended p' = false.
Proof.
  revert st past.
  induction p as [a | t | a k IH | c k IH | c k IH | k IH | k IH];
    cbn; intros st past Hp Hadv;
    try contradiction;
    try (injection Hadv as <- <- <-; reflexivity).
  eapply IH; eassumption.
Qed.

Lemma advance_holds_flag {A : Type} (p p' : prog A) (st st' : State)
    (past tr : list event) :
  holds_flag p -> advance p st past = (p', st', tr) -> suspended p' = true ->
  syncing st' = syncing st /\ holds_flag p'.
Proof.
  revert st past.
  induction p as [a | t | a k IH | c k IH | c k IH | k IH | k IH];
    cbn; intros st past Hp Hadv Hsusp;
    try (injection Hadv as <- <- <-; split; [reflexivity | exact Hp]).
  destruct (sets_syncing a) eqn:Ha.
  - rewrite (advance_runs_out _ _ _ _ _ _ Hp Hadv) in Hsusp. discriminate.
  - destruct (IH _ _ Hp Hadv Hsusp) as [Hs Hf].
    split; [ | exact Hf]. rewrite Hs. apply apply_action_keeps_syncing, Ha.
Qed.

Lemma resume_flag_free {A : Type} (p q : prog A) (a : answer) (e : event) :
  flag_free p -> resume p a = Some (q, e) -> flag_free q.
Proof.
  destruct p, a; cbn; intros Hp Hres; try discriminate Hres;
    injection Hres as <- _; apply Hp.
Qed.

Lemma resume_holds_flag {A : Type} (p q : prog A) (a : answer) (e : event) :
  holds_flag p -> resume p a = Some (q, e) -> holds_flag q.
Proof.
  destruct p, a; cbn; intros Hp Hres; try discriminate Hres;
    injection Hres as <- _; apply Hp.
Qed.

(** The synchronous start of [handleSync]: either the cycle is refused for
    want of a seed phrase and nothing changes, or the flag is raised and
    whatever gets parked keeps it until its end. *)
Lemma advance_handleSync (r : Render) (p : prog unit) (st st' : State)
    (past tr : list event) :
  advance (handleSync r) st past = (p, st', tr) ->
  (suspended p = false /\ st' = st)
  \/ (suspended p = true /\ syncing st' = true /\ holds_flag p).
Proof.
  unfold handleSync. destruct (String.eqb (seedPhrase r) "").
  - cbn. intros Hadv. injection Hadv as <- <- <-. left. split; reflexivity.
  - cbn [bind perform advance try_finally try_catch await_unit].
    intros Hadv. injection Hadv as <- <- <-. right.
    split; [reflexivity | split; [reflexivity | ]].
    intros x. apply holds_flag_until_finally. flags.
Qed.

Lemma cycles_app (l1 l2 : list Task) :
  cycles (l1 ++ l2) = (cycles l1 + cycles l2)%nat.
Proof. unfold cycles. rewrite filter_app, length_app. reflexivity. Qed.

Lemma cycles_park (src : ui_event) (p : prog unit) :
  cycles (park src p) =
    if suspended p && is_sync_cycle src then 1%nat else 0%nat.
Proof.
  unfold park, cycles. destruct (suspended p); cbn; [ | reflexivity].
  destruct (is_sync_cycle src); reflexivity.
Qed.

Lemma in_park (src : ui_event) (p : prog unit) (t : Task) :
  In t (park src p) -> t = {| source := src; rest := p |}.
Proof.
  unfold park. destruct (suspended p); cbn; intros H; [ | contradiction].
  destruct H as [<- | []]. reflexivity.
Qed.

Lemma task_invariant_dispatch (parses : string -> bool) (s : System)
    (ev : ui_event) :
  task_invariant s -> enabled (component s) ev ->
  task_invariant (dispatch parses s ev).
Proof.
  intros (Htasks & Hone & Hflag) Hen. unfold dispatch.
  destruct (advance (handler_of parses ev (component s)) (component s) (seen s))
    as [[p st] tr] eqn:Hadv.
  unfold task_invariant, cycles_in_flight in *. cbn [parked component].
  rewrite cycles_app, cycles_park.
  destruct (is_sync_cycle ev) eqn:Hev.
  - assert (ev = ClickSyncNow) as -> by (destruct ev; try discriminate Hev; reflexivity).
    cbn [handler_of] in Hadv. cbn [enabled] in Hen.
    assert (Hnone : cycles (parked s) = 0%nat).
    { destruct (cycles (parked s)) as [|[|n]]; [reflexivity | | lia].
      rewrite Hflag in Hen by reflexivity. discriminate Hen. }
    destruct (advance_handleSync _ _ _ _ _ _ Hadv)
      as [[Hsusp ->] | (Hsusp & Hup & Hkeeps)]; rewrite Hsusp; cbn [andb].
    + repeat split.
      * intros t Hin. apply in_app_or in Hin. destruct Hin as [Hin | Hin].
        -- apply Htasks, Hin.
        -- unfold park in Hin. rewrite Hsusp in Hin. contradiction.
      * lia.
      * lia.
    + repeat split.
      * intros t Hin. apply in_app_or in Hin. destruct Hin as [Hin | Hin].
        -- apply Htasks, Hin.
        -- apply in_park in Hin. subst t. exact Hkeeps.
      * lia.
      * intros _. exact Hup.
  - destruct (advance_flag_free _ _ _ _ _ _
                (flag_free_handlers parses ev (component s) Hev) Hadv)
      as [Hsame Hfree].
    rewrite andb_false_r, Nat.add_0_r. repeat split.
    + intros t Hin. apply in_app_or in Hin. destruct Hin as [Hin | Hin].
      * apply Htasks, Hin.
      * apply in_park in Hin. subst t. cbn [source rest]. rewrite Hev.
        exact Hfree.
    + exact Hone.
    + intros H. rewrite Hsame. apply Hflag, H.
Qed.

Lemma task_invariant_deliver (s s' : System) (before after : list Task)
    (t : Task) (a : answer) :
  task_invariant s -> parked s = before ++ t :: after ->
  deliver s before after t a = Some s' ->
  task_invariant s'.
Proof.
  intros (Htasks & Hone & Hflag) Hparked. unfold deliver.
  destruct (resume (rest t) a) as [[q e]|] eqn:Hres; [ | discriminate].
  destruct (advance q (component s) (seen s ++ [e])) as [[p st] tr] eqn:Hadv.
  intros Hs'. injection Hs' as <-.
  unfold task_invariant, cycles_in_flight in *. cbn [parked component].
  rewrite Hparked in Htasks, Hone, Hflag.
  change (t :: after) with ([t] ++ after) in Hone, Hflag.
  rewrite !cycles_app in *. rewrite cycles_park.
  assert (Ht : cycles [t] = if is_sync_cycle (source t) then 1%nat else 0%nat).
  { unfold cycles. cbn. destruct (is_sync_cycle (source t)); reflexivity. }
  rewrite Ht in Hone, Hflag. clear Ht.
  assert (Hrest : forall u, In u (before ++ after) ->
            if is_sync_cycle (source u) then holds_flag (rest u)
            else flag_free (rest u)).
  { intros u Hin. apply Htasks. apply in_app_or in Hin.
    apply in_or_app. destruct Hin; [left | right; right]; assumption. }
  assert (Hmine := Htasks t (in_elt t before after)).
  assert (Hsplit : forall u, In u (before ++ park (source t) p ++ after) ->
            In u (before ++ after) \/ In u (park (source t) p)).
  { intros u Hin. apply in_app_or in Hin. destruct Hin as [Hin | Hin].
    - left. apply in_or_app. left. exact Hin.
    - apply in_app_or in Hin. destruct Hin as [Hin | Hin].
      + right. exact Hin.
      + left. apply in_or_app. right. exact Hin. }
  destruct (is_sync_cycle (source t)) eqn:Hsrc.
  - pose proof (resume_holds_flag _ _ _ _ Hmine Hres) as Hq.
    destruct (suspended p) eqn:Hsusp; cbn [andb].
    + destruct (advance_holds_flag _ _ _ _ _ _ Hq Hadv Hsusp) as [Hsame Hkeeps].
      repeat split.
      * intros u Hin. destruct (Hsplit u Hin) as [Hu | Hu].
        -- apply Hrest, Hu.
        -- apply in_park in Hu. subst u. cbn [source rest]. rewrite Hsrc.
           exact Hkeeps.
      * exact Hone.
      * intros H. rewrite Hsame. apply Hflag, H.
    + repeat split.
      * intros u Hin. destruct (Hsplit u Hin) as [Hu | Hu].
        -- apply Hrest, Hu.
        -- unfold park in Hu. rewrite Hsusp in Hu. contradiction.
      * lia.
      * lia.
  - pose proof (resume_flag_free _ _ _ _ Hmine Hres) as Hq.
    destruct (advance_flag_free _ _ _ _ _ _ Hq Hadv) as [Hsame Hfree].
    rewrite andb_false_r. repeat split.
    + intros u Hin. destruct (Hsplit u Hin) as [Hu | Hu].
      * apply Hrest, Hu.
      * apply in_park in Hu. subst u. cbn [source rest]. rewrite Hsrc.
        exact Hfree.
    + exact Hone.
    + intros H. rewrite Hsame. apply Hflag, H.
Qed.

Lemma task_invariant_reachable (parses : string -> bool) (with_onSync : bool)
    (s : System) :
  reachable parses with_onSync s -> task_invariant s.
Proof.
  induction 1 as [ | s s' Hreach IH Hstep].
  - repeat split.
    + intros t [].
    + cbn. lia.
    + cbn. discriminate.
  - destruct Hstep as [s ev Hen | s s' before after t a Hparked Hdel].
    + apply task_invariant_dispatch; assumption.
    + eapply task_invariant_deliver; eassumption.
Qed.

(** C7 (amended).  In every state one mounted component can reach, at most
    one of its sync cycles is under way, and while one is, its Sync Now
    button takes no click: from the button a second cycle is refused, never
    run alongside the first. *)
Theorem one_sync_cycle_at_a_time (parses : string -> bool)
    (with_onSync : bool) (s : System) :
  reachable parses with_onSync s ->
  (cycles_in_flight s <= 1)%nat
  /\ (cycles_in_flight s = 1%nat -> ~ enabled (component s) ClickSyncNow).
Proof.
  intros Hreach.
  destruct (task_invariant_reachable _ _ _ Hreach) as (_ & Hone & Hflag).
  split; [exact Hone | ].
  intros Hbusy Hen. cbn in Hen. rewrite (Hflag Hbusy) in Hen. discriminate.
Qed.

Lemma system_mid_sync_reachable :
  reachable starts_with_scheme false system_mid_sync.
Proof.
  unfold system_mid_sync.
  apply reachable_step
    with (s := dispatch starts_with_scheme (system_on_mount false)
                 (TypeSeedPhrase "abandon ability able about")).
  - apply reachable_step with (s := system_on_mount false).
    + apply reachable_mount.
    + apply step_event. exact I.
  - apply step_event. reflexivity.
Defined.

Lemma one_sync_cycle_at_a_time_witness :
  cycles_in_flight system_mid_sync = 1%nat
  /\ (cycles_in_flight system_mid_sync <= 1)%nat
  /\ (cycles_in_flight system_mid_sync = 1%nat ->
      ~ enabled (component system_mid_sync) ClickSyncNow).
Proof.
  split; [reflexivity | ].
  exact (one_sync_cycle_at_a_time starts_with_scheme false system_mid_sync
           system_mid_sync_reachable).
Defined.

(** C7 (as stated, refuted).  A cycle is under way when the component is
    unmounted and mounted again.  The new mount has a [syncing] cell of its
    own, which is down, so its button takes the click, and [handleSync],
    which tests nothing but the seed phrase, starts a second cycle while the
    first is still awaiting its service. *)
Lemma second_mount_starts_second_cycle :
  cycles_in_flight system_mid_sync = 1%nat
  /\ enabled (component system_second_mount) ClickSyncNow
  /\ cycles_in_flight
       (dispatch starts_with_scheme system_second_mount ClickSyncNow) = 2%nat
  /\ ~ (cycles_in_flight
          (dispatch starts_with_scheme system_second_mount ClickSyncNow)
        <= 1)%nat.
Proof.
  split; [reflexivity | ]. split; [reflexivity | ].
  split; [reflexivity | ].
  change (cycles_in_flight
            (dispatch starts_with_scheme system_second_mount ClickSyncNow))
    with 2%nat.
  lia.
Qed.

(** The refusal is the button's: [handleSync] does not look at the flag, and
    called on a component that is already syncing it starts a cycle. *)
Remark handleSync_does_not_test_flag (r : Render) (st : State)
    (past : list event) :
  seedPhrase r <> "" ->
  exists k st' tr,
    advance (handleSync r) st past =
      (AwaitUnit (InitializeCrypto (seedPhrase r)) k, st', tr).
Proof.
  intros Hseed. unfold handleSync.
  destruct (String.eqb (seedPhrase r) "") eqn:Heq.
  - apply String.eqb_eq in Heq. contradiction.
  - cbn. eexists; eexists; eexists. reflexivity.
Qed.

(** ** Runs and tasks agree *)

(** Running a handler to its end is running its synchronous stretch and
    then the rest. *)
Lemma run_advance {A : Type} (env : Services) (p : prog A) (st : State)
    (past : list event) :
  run env p st past =
    let '(p', st', tr) := advance p st past in run env p' st' tr.
Proof.
  revert st past.
  induction p as [a | t | a k IH | c k IH | c k IH | k IH | k IH];
    intros st past; cbn [advance]; try reflexivity.
  cbn [run]. apply IH.
Qed.

(** A [run] answers an await with the answer of the service and goes on as
    [resume] does on that answer. *)
Lemma run_resume {A : Type} (env : Services) (p : prog A) (st : State)
    (past : list event) (a : answer) :
  answer_of env past p = Some a ->
  exists q e, resume p a = Some (q, e)
              /\ run env p st past = run env q st (past ++ [e]).
Proof.
  destruct p; cbn; intros Ha; try discriminate Ha; injection Ha as <-;
    eexists; eexists; split; reflexivity.
Qed.

(** * Further properties *)

(** ** More on the sync cycle *)

(** X1. The service calls of a sync cycle are an initial stretch of one fixed
    sequence: crypto initialisation with the seed phrase of the render, the
    health probe and the sync of the server of the render, the save of the
    seed phrase, and [onSync] when it is given. *)
Theorem handleSync_calls_in_order (env : Services) (r : Render) (st : State) :
  exists n,
    calls_of (trace_of (run env (handleSync r) st [])) =
      firstn n (sync_calls r).
Proof.
  unfold sync_calls.
  sync_paths r; try rewrite HonSync;
    first [ exists 0%nat; reflexivity | exists 1%nat; reflexivity
          | exists 2%nat; reflexivity | exists 3%nat; reflexivity
          | exists 4%nat; reflexivity | exists 5%nat; reflexivity ].
Qed.

(** X2. Once a service has thrown, or the health probe has answered [false],
    a sync cycle calls no further service. *)
Theorem handleSync_stops_at_first_failure (env : Services) (r : Render)
    (st : State) (pre post : list event) (e : event) :
  trace_of (run env (handleSync r) st []) = pre ++ e :: post ->
  stops_cycle e = true ->
  calls_of post = [].
Proof.
  sync_paths r; cbn; intros Hsplit Hstops; place_in_trace Hsplit;
    try (subst e; discriminate Hstops);
    try (injection Hsplit as <-; discriminate Hstops);
    reflexivity.
Qed.

Lemma handleSync_stops_at_first_failure_witness :
  let st := with_seed "abandon ability able about" in
  let pre :=
    [Did (SetSyncing true); Did (ConsoleLog "Starting sync process...");
     UnitCall (InitializeCrypto "abandon ability able about") (Returned tt);
     Did (ConsoleLog "Crypto initialized")] in
  let e := BoolCall (HealthCheck DEFAULT_SERVER_0) (Returned false) in
  let post :=
    [Did (ConsoleError "Sync error:"
            (ErrorObject (not_healthy DEFAULT_SERVER_0)));
     Did (NotificationsShow
            {| title := "Error"; message := not_healthy DEFAULT_SERVER_0;
               color := red; autoClose := Some false |});
     Did (SetSyncing false)] in
  trace_of (run (services_unhealthy stored_defaults) (handleSync st) st []) =
    pre ++ e :: post
  /\ stops_cycle e = true
  /\ calls_of post = [].
Proof.
  cbv zeta. split; [reflexivity | split; [reflexivity | ]].
  apply (handleSync_stops_at_first_failure
           (services_unhealthy stored_defaults)
           (with_seed "abandon ability able about")
           (with_seed "abandon ability able about")
           [Did (SetSyncing true); Did (ConsoleLog "Starting sync process...");
            UnitCall (InitializeCrypto "abandon ability able about")
              (Returned tt);
            Did (ConsoleLog "Crypto initialized")]
           _
           (BoolCall (HealthCheck DEFAULT_SERVER_0) (Returned false))).
  - reflexivity.
  - reflexivity.
Defined.

(** X3. A sync cycle announces success exactly when it has made all its
    calls and none of them threw. *)
Theorem handleSync_success_iff (env : Services) (r : Render) (st : State) :
  let tr := trace_of (run env (handleSync r) st []) in
  In success_notification (notifications_of tr)
  <-> calls_of tr = sync_calls r /\ raw_errors tr = [].
Proof.
  unfold sync_calls, success_notification.
  sync_paths r; try rewrite HonSync; cbn; split;
    try (intros [H | []]; discriminate H);
    try (intros [H1 H2]; discriminate);
    try (intros _; split; reflexivity);
    try (intros _; left; reflexivity).
Qed.

Lemma handleSync_state_at (env : Services) (r : Render) (st : State) :
  let st' := state_of (run env (handleSync r) st []) in
  st' = apply_action (SetSyncing (syncing st')) st.
Proof.
  sync_paths r; try reflexivity. destruct st; reflexivity.
Qed.

(** X4. A sync cycle changes no state cell but [syncing]: seed phrase,
    servers, dialogs and the rest are as before. *)
Theorem handleSync_touches_only_syncing (env : Services) (r : Render)
    (st : State) :
  let st' := state_of (run env (handleSync r) st []) in
  st' = apply_action (SetSyncing (syncing st')) st.
Proof.
  cbv zeta. destruct st. apply handleSync_state_at.
Qed.

(** ** More on saving settings *)

(** X5. [saveSettings] keeps its failures to itself: it always returns, it
    leaves the component state alone, and it shows "Failed to save settings"
    exactly when the read or the write of the storage service threw.  When
    the read threw, no write is attempted. *)
Theorem saveSettings_contains_failures (env : Services) (r : Render)
    (st : State) (past : list event) (updates : PartialSettings) :
  let out := run env (saveSettings r updates) st past in
  exit_of out = Returned tt
  /\ state_of out = st
  /\ exists evs,
       trace_of out = past ++ evs
       /\ ((raw_errors evs = [] /\ notifications_of evs = [])
           \/ (exists t, raw_errors evs = [t]
                         /\ notifications_of evs = [save_failed_notification]))
       /\ (forall t, answer_settings env past = Threw t -> writes_of evs = []).
Proof.
  unfold saveSettings. cbn.
  destruct (answer_settings env past) as [cur | t] eqn:Hread; cbn.
  - next_answer; (split; [reflexivity | split; [reflexivity | ]]);
      eexists; (split; [rewrite <- !app_assoc; reflexivity | ]); cbn;
      (split; [ | intros ? H; discriminate H]).
    + left. split; reflexivity.
    + right. eexists. split; reflexivity.
  - split; [reflexivity | split; [reflexivity | ]].
    eexists. split; [rewrite <- !app_assoc; reflexivity | ]. cbn.
    split; [ | reflexivity]. right. exists t. split; reflexivity.
Qed.

(** ** More on the server list *)

Lemma handleRemoveServer_state_at (env : Services) (st : State)
    (serverUrl : string) :
  let st' := state_of (run env (handleRemoveServer st serverUrl) st []) in
  st' =
    apply_action
      (SetSelectedServer (if String.eqb (selectedServer st) serverUrl
                          then DEFAULT_SERVER_0 else selectedServer st))
      (apply_action
         (SetCustomServers
            (filter (fun url => negb (String.eqb url serverUrl))
                    (customServers st))) st).
Proof.
  unfold handleRemoveServer, saveSettings.
  destruct (String.eqb (selectedServer st) serverUrl);
    all_answers; reflexivity.
Qed.

(** X6. After [handleRemoveServer] the removed URL is no custom server any
    more, every other custom server is one as before, and the selection has
    moved to the first default server if it was the removed URL and has
    stayed otherwise, whatever the storage service answered. *)
Theorem handleRemoveServer_removes (env : Services) (st : State)
    (serverUrl : string) :
  let st' := state_of (run env (handleRemoveServer st serverUrl) st []) in
  ~ In serverUrl (customServers st')
  /\ (forall u, u <> serverUrl ->
                (In u (customServers st') <-> In u (customServers st)))
  /\ (selectedServer st = serverUrl -> selectedServer st' = DEFAULT_SERVER_0)
  /\ (selectedServer st <> serverUrl -> selectedServer st' = selectedServer st).
Proof.
  destruct (handleRemoveServer_state env st serverUrl) as [Hc Hs].
  cbv zeta. rewrite Hc, Hs. repeat split.
  - intros Hin. apply filter_In in Hin. destruct Hin as [_ Hne].
    rewrite String.eqb_refl in Hne. discriminate Hne.
  - intros Hin. apply filter_In in Hin. tauto.
  - intros Hin. apply filter_In. split; [exact Hin | ].
    apply String.eqb_neq in H. rewrite H. reflexivity.
  - intros ->. rewrite String.eqb_refl. reflexivity.
  - intros Hne. apply String.eqb_neq in Hne. rewrite Hne. reflexivity.
Qed.

(** X7. When the removed server is the selected one and the stored settings
    can be read, [handleRemoveServer] writes twice.  The first write has the
    shortened list and still names the removed server as [server_url]; the
    second, which is the last, names the first default server and has the
    list of the render again, the removed server included. *)
Theorem handleRemoveServer_writes_old_list (env : Services) (st : State)
    (serverUrl : string) :
  selectedServer st = serverUrl ->
  (forall past, exists cur, answer_settings env past = Returned cur) ->
  exists first second,
    writes_of (trace_of (run env (handleRemoveServer st serverUrl) st [])) =
      [first; second]
    /\ has_server_url first = Some serverUrl
    /\ has_custom_servers first =
         Some (filter (fun url => negb (String.eqb url serverUrl))
                      (customServers st))
    /\ has_server_url second = Some DEFAULT_SERVER_0
    /\ has_custom_servers second = Some (customServers st).
Proof.
  intros Hsel Hreads. unfold handleRemoveServer, saveSettings.
  rewrite Hsel, String.eqb_refl. cbn.
  match goal with
  | |- context [answer_settings env ?h] =>
      destruct (Hreads h) as [cur1 Hcur1]; rewrite Hcur1
  end.
  cbn. next_answer.
  - match goal with
    | |- context [answer_settings env ?h] =>
        destruct (Hreads h) as [cur2 Hcur2]; rewrite Hcur2
    end.
    cbn. next_answer; eexists; eexists; (split; [reflexivity | ]); cbn;
      rewrite ?Hsel; repeat split.
  - match goal with
    | |- context [answer_settings env ?h] =>
        destruct (Hreads h) as [cur2 Hcur2]; rewrite Hcur2
    end.
    cbn. next_answer; eexists; eexists; (split; [reflexivity | ]); cbn;
      rewrite ?Hsel; repeat split.
Qed.

Lemma handleRemoveServer_writes_old_list_witness :
  let st := with_custom_server "https://notes.example.org" in
  selectedServer st = "https://notes.example.org"
  /\ (forall past, exists cur,
        answer_settings (services_ok stored_defaults) past = Returned cur)
  /\ exists first second,
       writes_of (trace_of (run (services_ok stored_defaults)
                                (handleRemoveServer st
                                   "https://notes.example.org") st [])) =
         [first; second]
       /\ has_server_url first = Some "https://notes.example.org"
       /\ has_custom_servers first =
            Some (filter (fun url =>
                            negb (String.eqb url "https://notes.example.org"))
                         (customServers st))
       /\ has_server_url second = Some DEFAULT_SERVER_0
       /\ has_custom_servers second = Some (customServers st).
Proof.
  cbv zeta. split; [reflexivity | ].
  split; [intros past; exists stored_defaults; reflexivity | ].
  apply (handleRemoveServer_writes_old_list (services_ok stored_defaults)
           (with_custom_server "https://notes.example.org")
           "https://notes.example.org").
  - reflexivity.
  - intros past. exists stored_defaults. reflexivity.
Defined.

(** X8. A refused add leaves no mark: with the validity flag down
    [handleAddServer] does nothing at all, and for a URL that is already a
    custom or a default server it only shows "Server already exists".  In
    both cases the state is untouched and the storage service is not
    called. *)
Theorem handleAddServer_refuses (env : Services) (r : Render) (st : State)
    (past : list event) :
  isValidUrl r
  && negb (includes (customServers r) (newServerUrl r)
           || is_default_server (newServerUrl r)) = false ->
  run env (handleAddServer r) st past =
    (Returned tt, st,
     past ++ (if isValidUrl r
              then [Did (NotificationsShow server_exists_notification)]
              else [])).
Proof.
  unfold handleAddServer. destruct (isValidUrl r); cbn [negb andb].
  - intros Hdup. apply negb_false_iff in Hdup. rewrite Hdup. reflexivity.
  - intros _. cbn. rewrite app_nil_r. reflexivity.
Qed.

Lemma handleAddServer_refuses_witness :
  let st :=
    {| seedPhrase := ""; autoSync := false; showNewSeedPhrase := false;
       newSeedPhrase := ""; syncing := false;
       selectedServer := DEFAULT_SERVER_0; customServers := [];
       newServerUrl := "http://localhost:3222"; showAddServer := true;
       isValidUrl := true; onSync_given := false |} in
  isValidUrl st
  && negb (includes (customServers st) (newServerUrl st)
           || is_default_server (newServerUrl st)) = false
  /\ run (services_ok stored_defaults) (handleAddServer st) st [] =
       (Returned tt, st,
        [] ++ (if isValidUrl st
               then [Did (NotificationsShow server_exists_notification)]
               else [])).
Proof.
  cbv zeta. split; [reflexivity | ].
  apply handleAddServer_refuses. reflexivity.
Defined.

(** X9. An accepted add appends the URL to the custom servers, selects it,
    clears the URL field and closes the dialog.  Every object it hands to the
    storage service carries the new list and the new selection together.
    "Server added successfully" is shown last even when saving failed, after
    the "Failed to save settings" notice in that case. *)
Theorem handleAddServer_accepts (env : Services) (st : State) :
  isValidUrl st
  && negb (includes (customServers st) (newServerUrl st)
           || is_default_server (newServerUrl st)) = true ->
  let out := run env (handleAddServer st) st [] in
  customServers (state_of out) = customServers st ++ [newServerUrl st]
  /\ selectedServer (state_of out) = newServerUrl st
  /\ newServerUrl (state_of out) = ""
  /\ showAddServer (state_of out) = false
  /\ (forall obj, In obj (writes_of (trace_of out)) ->
        has_custom_servers obj = Some (customServers st ++ [newServerUrl st])
        /\ has_server_url obj = Some (newServerUrl st))
  /\ (notifications_of (trace_of out) = [server_added_notification]
      \/ notifications_of (trace_of out) =
           [save_failed_notification; server_added_notification]).
Proof.
  intros Hok. apply andb_true_iff in Hok. destruct Hok as [Hflag Hnew].
  apply negb_true_iff in Hnew.
  unfold handleAddServer, saveSettings. rewrite Hflag, Hnew.
  all_answers; repeat split;
    try (match goal with
         | H : _ \/ False |- _ => destruct H as [<- | []]; reflexivity
         | H : False |- _ => destruct H
         end);
    try (left; reflexivity); try (right; reflexivity).
Qed.

Lemma handleAddServer_accepts_witness :
  let st :=
    {| seedPhrase := ""; autoSync := false; showNewSeedPhrase := false;
       newSeedPhrase := ""; syncing := false;
       selectedServer := DEFAULT_SERVER_0; customServers := [];
       newServerUrl := "https://notes.example.org"; showAddServer := true;
       isValidUrl := true; onSync_given := false |} in
  isValidUrl st
  && negb (includes (customServers st) (newServerUrl st)
           || is_default_server (newServerUrl st)) = true
  /\ customServers (state_of (run services_unreadable (handleAddServer st)
                                  st [])) = ["https://notes.example.org"]
  /\ notifications_of (trace_of (run services_unreadable (handleAddServer st)
                                     st [])) =
       [save_failed_notification; server_added_notification].
Proof.
  cbv zeta. split; [reflexivity | ].
  split.
  - refine (proj1 (handleAddServer_accepts services_unreadable _ _)).
    reflexivity.
  - reflexivity.
Defined.

(** X10. The [catch] clause of [handleAddServer] never runs: the handler
    always returns and never shows "Failed to add server", whatever the
    storage service does, because [saveSettings] has already caught it. *)
Theorem handleAddServer_never_reports_failure (env : Services) (r : Render)
    (st : State) :
  exit_of (run env (handleAddServer r) st []) = Returned tt
  /\ ~ In add_failed_notification
         (notifications_of (trace_of (run env (handleAddServer r) st []))).
Proof.
  unfold handleAddServer, saveSettings, add_failed_notification.
  destruct (isValidUrl r); cbn [negb];
    [ | split; [reflexivity | intros []]].
  destruct (includes (customServers r) (newServerUrl r)
            || is_default_server (newServerUrl r))%bool;
    all_answers; (split; [reflexivity | ]);
    intros H; cbn in H; intuition discriminate.
Qed.

(** X11. The values the server [Select] is given stay pairwise different
    under adding, removing and changing the selection: no custom server is
    ever listed twice or beside a default server of the same URL. *)
Theorem options_unique_preserved (env : Services) (st : State)
    (op : server_op) :
  options_unique st ->
  options_unique (state_of (invoke env (server_handler op) st)).
Proof.
  unfold options_unique, invoke. rewrite !serverOptions_values.
  intros Huniq. destruct op as [ | serverUrl | v]; cbn [server_handler].
  - pose proof (handleAddServer_state env st) as Hst. cbv zeta in Hst.
    destruct (isValidUrl st
              && negb (includes (customServers st) (newServerUrl st)
                       || is_default_server (newServerUrl st))) eqn:Hok.
    + destruct Hst as [-> _].
      apply andb_true_iff in Hok. destruct Hok as [_ Hnew].
      apply negb_true_iff, orb_false_iff in Hnew. destruct Hnew as [Hc Hd].
      rewrite app_assoc. apply NoDup_app.
      * exact Huniq.
      * constructor; [intros [] | constructor].
      * intros a Hin [<- | []]. apply in_app_or in Hin.
        destruct Hin as [Hin | Hin].
        -- apply is_default_server_In in Hin. congruence.
        -- apply includes_In in Hin. congruence.
    + rewrite Hst. exact Huniq.
  - destruct (handleRemoveServer_state env st serverUrl) as [-> _].
    apply NoDup_app.
    + apply NoDup_app_remove_r in Huniq. exact Huniq.
    + apply NoDup_filter. apply NoDup_app_remove_l in Huniq. exact Huniq.
    + intros a Hd Hc. apply filter_In in Hc. destruct Hc as [Hc _].
      clear - Huniq Hd Hc.
      induction (map value DEFAULT_SERVERS) as [ | d ds IH];
        [contradiction | ].
      cbn in Huniq. apply NoDup_cons_iff in Huniq.
      destruct Huniq as [Hnot Hrest]. destruct Hd as [-> | Hd].
      * apply Hnot. apply in_or_app. right. exact Hc.
      * apply IH; assumption.
  - destruct (handleServerChange_state env st v) as [-> _]. exact Huniq.
Qed.

Lemma options_unique_preserved_witness :
  options_unique (with_custom_server "https://notes.example.org")
  /\ options_unique
       (state_of (invoke (services_ok stored_defaults)
                         (server_handler
                            (RemoveServer "https://notes.example.org"))
                         (with_custom_server "https://notes.example.org"))).
Proof.
  assert (Huniq : options_unique
                    (with_custom_server "https://notes.example.org")).
  { unfold options_unique. cbn.
    repeat constructor; cbn; intuition discriminate. }
  split; [exact Huniq | ].
  exact (options_unique_preserved (services_ok stored_defaults)
           (with_custom_server "https://notes.example.org")
           (RemoveServer "https://notes.example.org") Huniq).
Defined.

(** ** More on the URL field *)

(** X12. Typing a text and then adding it, on a component in any state, adds
    the text exactly when it parses and is neither a custom nor a default
    server; otherwise the server list and the selection stay as they were. *)
Theorem typed_url_added_iff_valid (parses : string -> bool)
    (env env' : Services) (st : State) (v : string) :
  let st1 := state_of (run env (handleUrlChange parses v) st []) in
  let st2 := state_of (run env' (handleAddServer st1) st1 []) in
  if parses v
     && negb (includes (customServers st) v || is_default_server v)
  then customServers st2 = customServers st ++ [v]
       /\ selectedServer st2 = v
  else customServers st2 = customServers st
       /\ selectedServer st2 = selectedServer st.
Proof.
  cbv zeta.
  set (st1 := state_of (run env (handleUrlChange parses v) st [])).
  assert (Hflag : isValidUrl st1 = validateUrl parses (newServerUrl st1))
    by reflexivity.
  pose proof (handleAddServer_with_current_flag parses env' st1 Hflag) as H.
  cbv zeta in H.
  change (newServerUrl st1) with v in H.
  change (customServers st1) with (customServers st) in H.
  destruct (parses v
            && negb (includes (customServers st) v || is_default_server v)).
  - exact H.
  - rewrite H. split; reflexivity.
Qed.

Lemma handleServerChange_state_at (env : Services) (st : State)
    (v : option string) :
  let st' := state_of (run env (handleServerChange st v) st []) in
  st' = st \/ exists s, st' = apply_action (SetSelectedServer s) st.
Proof.
  unfold handleServerChange, saveSettings, truthy.
  destruct v as [s|]; [ | left; reflexivity].
  destruct (String.eqb s ""); [left; reflexivity | ].
  all_answers; right; exists s; reflexivity.
Qed.

Lemma parse_or_empty_kept_by_filter (parses : string -> bool)
    (f : string -> bool) (l : list string) :
  Forall (fun u => parses u = true \/ u = "") l ->
  Forall (fun u => parses u = true \/ u = "") (filter f l).
Proof.
  rewrite !Forall_forall. intros Hall u Hin. apply Hall.
  apply filter_In in Hin. tauto.
Qed.

Lemma handleAddServer_url_cells (parses : string -> bool) (env : Services)
    (st : State) :
  flag_in_step parses st -> customs_parse_or_empty parses st ->
  let st' := state_of (run env (handleAddServer st) st []) in
  flag_in_step parses st' /\ customs_parse_or_empty parses st'.
Proof.
  intros Hflag Hcustoms. cbv zeta.
  pose proof (handleAddServer_state env st) as Hst. cbv zeta in Hst.
  destruct (isValidUrl st
            && negb (includes (customServers st) (newServerUrl st)
                     || is_default_server (newServerUrl st))) eqn:Hok.
  - apply andb_true_iff in Hok. destruct Hok as [Hup Hnew].
    apply negb_true_iff, orb_false_iff in Hnew. destruct Hnew as [Hc Hd].
    destruct (handleAddServer_leaves_flag env st Hup Hc Hd) as [Hcleared _].
    destruct Hst as [Hlist _]. split.
    + intros _. right. exact Hcleared.
    + unfold customs_parse_or_empty. rewrite Hlist. apply Forall_app.
      split; [exact Hcustoms | ]. constructor; [ | constructor].
      exact (Hflag Hup).
  - rewrite Hst. split; assumption.
Qed.

(** X13. Whatever the user does to the mounted component, one handler at a
    time, every custom server is a text that parses as a URL or is the empty
    text, and the validity flag is only ever up over such a text. *)
Theorem custom_servers_parse_or_are_empty (parses : string -> bool)
    (env : Services) (st : State) (ev : ui_event) :
  ev <> Mount ->
  flag_in_step parses st -> customs_parse_or_empty parses st ->
  let st' := state_of (run env (handler_of parses ev st) st []) in
  flag_in_step parses st' /\ customs_parse_or_empty parses st'.
Proof.
  intros Hev Hflag Hcustoms. cbv zeta.
  destruct ev; cbn [handler_of]; try contradiction.
  - split; assumption.
  - split; assumption.
  - split; assumption.
  - split; [ | exact Hcustoms]. unfold flag_in_step. cbn.
    unfold validateUrl.
    destruct (parses v); intros Hup; [left; reflexivity | discriminate Hup].
  - unfold handleKeyPress.
    destruct (String.eqb key "Enter" && isValidUrl st).
    + apply handleAddServer_url_cells; assumption.
    + split; assumption.
  - apply handleAddServer_url_cells; assumption.
  - rewrite handleRemoveServer_state_at. split; [exact Hflag | ].
    apply parse_or_empty_kept_by_filter. exact Hcustoms.
  - destruct (handleServerChange_state_at env st v) as [-> | [s ->]];
      split; assumption.
  - unfold onSeedPhraseChange, saveSettings. all_answers; split; assumption.
  - unfold onAutoSyncChange, saveSettings. all_answers; split; assumption.
  - rewrite handleSync_state_at. split; assumption.
  - unfold generateNewSeedPhrase, saveSettings.
    all_answers; split; assumption.
Qed.

Lemma custom_servers_parse_or_are_empty_witness :
  let st :=
    {| seedPhrase := ""; autoSync := false; showNewSeedPhrase := false;
       newSeedPhrase := ""; syncing := false;
       selectedServer := "https://notes.example.org";
       customServers := ["https://notes.example.org"];
       newServerUrl := "https://example.org"; showAddServer := true;
       isValidUrl := true; onSync_given := false |} in
  let st' :=
    state_of (run (services_ok stored_defaults)
                  (handler_of starts_with_scheme ClickAddServer st) st []) in
  ClickAddServer <> Mount
  /\ isValidUrl st = true
  /\ flag_in_step starts_with_scheme st
  /\ customs_parse_or_empty starts_with_scheme st
  /\ customServers st' = ["https://notes.example.org"; "https://example.org"]
  /\ isValidUrl st' = true /\ newServerUrl st' = ""
  /\ flag_in_step starts_with_scheme st'
  /\ customs_parse_or_empty starts_with_scheme st'.
Proof.
  cbv zeta.
  assert (Hev : ClickAddServer <> Mount) by discriminate.
  assert (Hflag : flag_in_step starts_with_scheme
            {| seedPhrase := ""; autoSync := false; showNewSeedPhrase := false;
               newSeedPhrase := ""; syncing := false;
               selectedServer := "https://notes.example.org";
               customServers := ["https://notes.example.org"];
               newServerUrl := "https://example.org"; showAddServer := true;
               isValidUrl := true; onSync_given := false |})
    by (intros _; left; reflexivity).
  assert (Hcustoms : customs_parse_or_empty starts_with_scheme
            {| seedPhrase := ""; autoSync := false; showNewSeedPhrase := false;
               newSeedPhrase := ""; syncing := false;
               selectedServer := "https://notes.example.org";
               customServers := ["https://notes.example.org"];
               newServerUrl := "https://example.org"; showAddServer := true;
               isValidUrl := true; onSync_given := false |})
    by (constructor; [left; reflexivity | constructor]).
  split; [exact Hev | ]. split; [reflexivity | ].
  split; [exact Hflag | ]. split; [exact Hcustoms | ].
  split; [reflexivity | ]. split; [reflexivity | ]. split; [reflexivity | ].
  exact (custom_servers_parse_or_are_empty starts_with_scheme
           (services_ok stored_defaults) _ ClickAddServer Hev Hflag Hcustoms).
Defined.

(** ** Loading settings and generating a seed phrase *)

(** X14. The mount effect never throws, shows no notification and writes
    nothing.  When the stored settings can be read, it copies auto-sync,
    selection, custom servers and seed phrase from them as they are: the
    selection is a default or custom server afterwards exactly when the
    stored settings name one.  When they cannot be read, the state stays as
    it was and the error goes to the console only. *)
Theorem loadSettings_takes_stored (env : Services) (st : State)
    (past : list event) :
  let out := run env loadSettings st past in
  exit_of out = Returned tt
  /\ (exists evs, trace_of out = past ++ evs
                  /\ notifications_of evs = [] /\ writes_of evs = [])
  /\ match answer_settings env past with
     | Returned s =>
         autoSync (state_of out) = auto_sync s
         /\ selectedServer (state_of out) = server_url s
         /\ customServers (state_of out) = custom_servers s
         /\ seedPhrase (state_of out) = seed_phrase s
         /\ syncing (state_of out) = syncing st
         /\ (server_invariant (state_of out) <-> stored_selection_known s)
     | Threw t =>
         state_of out = st
         /\ trace_of out =
              past ++ [SettingsCall (Threw t);
                       Did (ConsoleError "Failed to load settings:" t)]
     end.
Proof.
  unfold loadSettings. cbn.
  destruct (answer_settings env past) as [s | t]; cbn.
  - split; [reflexivity | ]. split.
    + eexists. split; [rewrite <- !app_assoc; reflexivity | ].
      split; reflexivity.
    + repeat split; auto.
  - split; [reflexivity | ]. split.
    + eexists. split; [rewrite <- !app_assoc; reflexivity | ].
      split; reflexivity.
    + split; [reflexivity | ]. rewrite <- app_assoc. reflexivity.
Qed.

(** X15. [generateNewSeedPhrase] is all or nothing on the component state.
    If generating the phrase or initialising crypto with it throws, the state
    is unchanged, nothing is written and "Failed to generate seed phrase" is
    shown.  Otherwise the phrase becomes the seed phrase, is put on display,
    and every object handed to the storage service carries it; that also
    holds when saving fails. *)
Theorem generateNewSeedPhrase_all_or_nothing (env : Services) (r : Render)
    (st : State) :
  let out := run env (generateNewSeedPhrase r) st [] in
  exit_of out = Returned tt
  /\ match answer_seed env [] with
     | Threw _ =>
         state_of out = st
         /\ notifications_of (trace_of out) = [seed_failed_notification]
         /\ calls_of (trace_of out) = [CallSeed]
     | Returned m =>
         match answer_unit env [SeedCall (Returned m)] (InitializeCrypto m)
         with
         | Threw _ =>
             state_of out = st
             /\ notifications_of (trace_of out) = [seed_failed_notification]
             /\ calls_of (trace_of out) =
                  [CallSeed; CallUnit (InitializeCrypto m)]
         | Returned _ =>
             seedPhrase (state_of out) = m
             /\ newSeedPhrase (state_of out) = m
             /\ showNewSeedPhrase (state_of out) = true
             /\ (forall obj, In obj (writes_of (trace_of out)) ->
                             has_seed_phrase obj = Some m)
             /\ ~ In seed_failed_notification
                    (notifications_of (trace_of out))
         end
     end.
Proof.
  unfold generateNewSeedPhrase, saveSettings, seed_failed_notification. cbn.
  destruct (answer_seed env []) as [m | t]; cbn;
    [ | repeat split].
  destruct (answer_unit env [SeedCall (Returned m)] (InitializeCrypto m))
    as [[] | t]; cbn; [ | repeat split].
  repeat next_answer; (split; [reflexivity | ]); repeat split;
    try (intros obj H; cbn in H; destruct H as [<- | []]; reflexivity);
    try (intros obj []);
    intros H; cbn in H; intuition discriminate.
Qed.

(** X16. A toggle of the auto-sync switch sets the state cell and, once the
    stored settings have been read, writes an object whose [auto_sync] is
    the new position of the switch. *)
Theorem onAutoSyncChange_persists (env : Services) (r : Render) (st : State)
    (checked : bool) (cur : SyncSettingsType) :
  answer_settings env [Did (SetAutoSync checked)] = Returned cur ->
  autoSync (state_of (run env (onAutoSyncChange r checked) st [])) = checked
  /\ exists obj,
       writes_of (trace_of (run env (onAutoSyncChange r checked) st [])) =
         [obj]
       /\ has_auto_sync obj = Some checked
       /\ has_seed_phrase obj = Some (seedPhrase r)
       /\ has_server_url obj = Some (selectedServer r).
Proof.
  intros Hcur. unfold onAutoSyncChange, saveSettings. cbn.
  rewrite Hcur. cbn.
  next_answer; (split; [reflexivity | ]); eexists; repeat split.
Qed.

Lemma onAutoSyncChange_persists_witness :
  let st := with_seed "abandon ability able about" in
  answer_settings (services_ok stored_defaults) [Did (SetAutoSync true)] =
    Returned stored_defaults
  /\ autoSync (state_of (run (services_ok stored_defaults)
                             (onAutoSyncChange st true) st [])) = true
  /\ exists obj,
       writes_of (trace_of (run (services_ok stored_defaults)
                                (onAutoSyncChange st true) st [])) = [obj]
       /\ has_auto_sync obj = Some true
       /\ has_seed_phrase obj = Some (seedPhrase st)
       /\ has_server_url obj = Some (selectedServer st).
Proof.
  cbv zeta. split; [reflexivity | ].
  apply (onAutoSyncChange_persists (services_ok stored_defaults)
           (with_seed "abandon ability able about")
           (with_seed "abandon ability able about") true stored_defaults).
  reflexivity.
Defined.

(** ** More on the [syncing] flag *)

Lemma run_flag_free {A : Type} (env : Services) (p : prog A) (st : State)
    (past : list event) :
  flag_free p -> syncing (state_of (run env p st past)) = syncing st.
Proof.
  revert st past.
  induction p as [a | t | a k IH | c k IH | c k IH | k IH | k IH];
    cbn; intros st past Hp; try reflexivity; try (apply IH, Hp).
  destruct Hp as [Ha Hk]. rewrite (IH _ _ Hk).
  apply apply_action_keeps_syncing, Ha.
Qed.

(** X17. Only [handleSync] writes the [syncing] flag: every other handler of
    the component, run to its end against any services and from any live
    state, leaves the flag as it found it. *)
Theorem other_handlers_leave_syncing (parses : string -> bool)
    (env : Services) (ev : ui_event) (r : Render) (st : State)
    (past : list event) :
  ev <> ClickSyncNow ->
  syncing (state_of (run env (handler_of parses ev r) st past)) = syncing st.
Proof.
  intros Hev. apply run_flag_free. apply flag_free_handlers.
  destruct ev; try reflexivity. contradiction.
Qed.

Lemma other_handlers_leave_syncing_witness :
  ClickGenerate <> ClickSyncNow
  /\ syncing (state_of (run (services_no_entropy stored_defaults)
                            (handler_of starts_with_scheme ClickGenerate
                               (initial_state false))
                            (with_seed "abandon ability able about") [])) =
       syncing (with_seed "abandon ability able about").
Proof.
  assert (Hev : ClickGenerate <> ClickSyncNow) by discriminate.
  split; [exact Hev | ].
  exact (other_handlers_leave_syncing starts_with_scheme
           (services_no_entropy stored_defaults) ClickGenerate
           (initial_state false) (with_seed "abandon ability able about")
           [] Hev).
Defined.

Lemma releases_until_finally {A : Type} (p : prog A) :
  flag_free p -> releases (try_finally p (perform (SetSyncing false))).
Proof.
  induction p as [a | t | a k IH | c k IH | c k IH | k IH | k IH];
    cbn; intros Hp; auto.
  destruct Hp as [Ha Hk]. destruct a; try discriminate Ha; auto.
Qed.

Lemma advance_quiet_end {A : Type} (p p' : prog A) (st st' : State)
    (past tr : list event) :
  quiet_end p -> advance p st past = (p', st', tr) ->
  suspended p' = false /\ syncing st' = syncing st.
Proof.
  revert st past.
  induction p as [a | t | a k IH | c k IH | c k IH | k IH | k IH];
    cbn; intros st past Hp Hadv; try contradiction;
    try (injection Hadv as <- <- <-; split; reflexivity).
  destruct Hp as [Ha Hk]. destruct (IH _ _ Hk Hadv) as [Hs Hf].
  split; [exact Hs | ]. rewrite Hf. apply apply_action_keeps_syncing, Ha.
Qed.

Lemma advance_releases {A : Type} (p p' : prog A) (st st' : State)
    (past tr : list event) :
  releases p -> advance p st past = (p', st', tr) ->
  (suspended p' = true /\ syncing st' = syncing st /\ releases p')
  \/ (suspended p' = false /\ syncing st' = false).
Proof.
  revert st past.
  induction p as [a | t | a k IH | c k IH | c k IH | k IH | k IH];
    cbn [releases advance]; intros st past Hp Hadv; try contradiction;
    try (injection Hadv as <- <- <-; left;
         split; [reflexivity | split; [reflexivity | exact Hp]]).
  destruct a;
    try (destruct (IH _ _ Hp Hadv) as [(Hs & Hf & Hr) | (Hs & Hf)];
         [left; split; [exact Hs | split; [exact Hf | exact Hr]]
         | right; split; [exact Hs | exact Hf]]).
  destruct Hp as [-> Hquiet]. right.
  destruct (advance_quiet_end _ _ _ _ _ _ Hquiet Hadv) as [Hs Hf].
  split; [exact Hs | ]. rewrite Hf. reflexivity.
Qed.

Lemma resume_releases {A : Type} (p q : prog A) (a : answer) (e : event) :
  releases p -> resume p a = Some (q, e) -> releases q.
Proof.
  destruct p, a; cbn; intros Hp Hres; try discriminate Hres;
    injection Hres as <- _; apply Hp.
Qed.

Lemma advance_handleSync_releases (r : Render) (p : prog unit)
    (st st' : State) (past tr : list event) :
  advance (handleSync r) st past = (p, st', tr) ->
  suspended p = true -> releases p.
Proof.
  unfold handleSync. destruct (String.eqb (seedPhrase r) "").
  - cbn. intros Hadv. injection Hadv as <- <- <-. discriminate.
  - cbn [bind perform advance try_finally try_catch await_unit].
    intros Hadv _. injection Hadv as <- <- <-.
    intros x. apply releases_until_finally. flags.
Qed.

Lemma cycles_one (t : Task) :
  cycles [t] = if is_sync_cycle (source t) then 1%nat else 0%nat.
Proof. unfold cycles. cbn. destruct (is_sync_cycle (source t)); reflexivity. Qed.

Lemma flag_tracks_cycle_dispatch (parses : string -> bool) (s : System)
    (ev : ui_event) :
  task_invariant s -> flag_tracks_cycle s -> enabled (component s) ev ->
  flag_tracks_cycle (dispatch parses s ev).
Proof.
  intros (_ & _ & _) (Htasks & Hidle) Hen. unfold dispatch.
  destruct (advance (handler_of parses ev (component s)) (component s) (seen s))
    as [[p st] tr] eqn:Hadv.
  unfold flag_tracks_cycle, cycles_in_flight in *. cbn [parked component].
  rewrite cycles_app, cycles_park.
  destruct (is_sync_cycle ev) eqn:Hev.
  - assert (ev = ClickSyncNow) as ->
      by (destruct ev; try discriminate Hev; reflexivity).
    cbn [handler_of] in Hadv. cbn [enabled] in Hen.
    destruct (suspended p) eqn:Hsusp; cbn [andb].
    + split; [ | lia].
      intros t Hin Hsync. apply in_app_or in Hin. destruct Hin as [Hin | Hin].
      * apply Htasks; assumption.
      * apply in_park in Hin. subst t.
        exact (advance_handleSync_releases _ _ _ _ _ _ Hadv Hsusp).
    + destruct (advance_handleSync _ _ _ _ _ _ Hadv)
        as [[_ ->] | (Hs & _)]; [ | congruence].
      split; [ | intros _; exact Hen].
      intros t Hin Hsync. apply in_app_or in Hin. destruct Hin as [Hin | Hin].
      * apply Htasks; assumption.
      * unfold park in Hin. rewrite Hsusp in Hin. contradiction.
  - destruct (advance_flag_free _ _ _ _ _ _
                (flag_free_handlers parses ev (component s) Hev) Hadv)
      as [Hsame _].
    rewrite andb_false_r, Nat.add_0_r. split.
    + intros t Hin Hsync. apply in_app_or in Hin. destruct Hin as [Hin | Hin].
      * apply Htasks; assumption.
      * apply in_park in Hin. subst t. cbn [source] in Hsync. congruence.
    + intros H. rewrite Hsame. apply Hidle, H.
Qed.

Lemma flag_tracks_cycle_deliver (s s' : System) (before after : list Task)
    (t : Task) (a : answer) :
  task_invariant s -> flag_tracks_cycle s ->
  parked s = before ++ t :: after ->
  deliver s before after t a = Some s' ->
  flag_tracks_cycle s'.
Proof.
  intros (Hkinds & _ & _) (Htasks & Hidle) Hparked. unfold deliver.
  destruct (resume (rest t) a) as [[q e]|] eqn:Hres; [ | discriminate].
  destruct (advance q (component s) (seen s ++ [e])) as [[p st] tr] eqn:Hadv.
  intros Hs'. injection Hs' as <-.
  unfold flag_tracks_cycle, cycles_in_flight in *. cbn [parked component].
  rewrite Hparked in Htasks, Hidle, Hkinds.
  change (t :: after) with ([t] ++ after) in Hidle.
  rewrite !cycles_app in *. rewrite cycles_park. rewrite cycles_one in Hidle.
  assert (Hothers : forall u, In u (before ++ park (source t) p ++ after) ->
            In u (before ++ t :: after) \/ In u (park (source t) p)).
  { intros u Hin. apply in_app_or in Hin. destruct Hin as [Hin | Hin].
    - left. apply in_or_app. left. exact Hin.
    - apply in_app_or in Hin. destruct Hin as [Hin | Hin].
      + right. exact Hin.
      + left. apply in_or_app. right. right. exact Hin. }
  pose proof (Hkinds t (in_elt t before after)) as Hkind.
  destruct (is_sync_cycle (source t)) eqn:Hsrc.
  - pose proof (Htasks t (in_elt t before after) Hsrc) as Hmine.
    pose proof (resume_releases _ _ _ _ Hmine Hres) as Hq.
    destruct (advance_releases _ _ _ _ _ _ Hq Hadv)
      as [(Hsusp & _ & Hrel) | (Hsusp & Hdown)]; rewrite Hsusp; cbn [andb].
    + split; [ | lia].
      intros u Hin Hsync. destruct (Hothers u Hin) as [Hu | Hu].
      * apply Htasks; assumption.
      * apply in_park in Hu. subst u. exact Hrel.
    + split; [ | intros _; exact Hdown].
      intros u Hin Hsync. destruct (Hothers u Hin) as [Hu | Hu].
      * apply Htasks; assumption.
      * unfold park in Hu. rewrite Hsusp in Hu. contradiction.
  - pose proof (resume_flag_free _ _ _ _ Hkind Hres) as Hq.
    destruct (advance_flag_free _ _ _ _ _ _ Hq Hadv) as [Hsame _].
    rewrite andb_false_r. split.
    + intros u Hin Hsync. destruct (Hothers u Hin) as [Hu | Hu].
      * apply Htasks; assumption.
      * apply in_park in Hu. subst u. cbn [source] in Hsync. congruence.
    + intros H. rewrite Hsame. apply Hidle. lia.
Qed.

Lemma flag_tracks_cycle_reachable (parses : string -> bool)
    (with_onSync : bool) (s : System) :
  reachable parses with_onSync s -> flag_tracks_cycle s.
Proof.
  induction 1 as [ | s s' Hreach IH Hstep].
  - split; [intros t [] | reflexivity].
  - pose proof (task_invariant_reachable _ _ _ Hreach) as Hinv.
    destruct Hstep as [s ev Hen | s s' before after t a Hparked Hdel].
    + apply flag_tracks_cycle_dispatch; assumption.
    + eapply flag_tracks_cycle_deliver; eassumption.
Qed.

(** X18. In every state the component can reach, with handlers parked at
    their awaits and resumed in any order, the [syncing] flag is up exactly
    while a sync cycle is under way: it is raised when the cycle starts and
    lowered when the cycle ends, by return or by throw, and by nothing
    else. *)
Theorem syncing_iff_cycle_in_flight (parses : string -> bool)
    (with_onSync : bool) (s : System) :
  reachable parses with_onSync s ->
  (syncing (component s) = true <-> cycles_in_flight s = 1%nat).
Proof.
  intros Hreach.
  destruct (task_invariant_reachable _ _ _ Hreach) as (_ & Hone & Hup).
  destruct (flag_tracks_cycle_reachable _ _ _ Hreach) as (_ & Hidle).
  split; [ | exact Hup].
  intros Hsyncing. destruct (cycles_in_flight s) as [ | [ | n]];
    [ | reflexivity | lia].
  rewrite Hidle in Hsyncing by reflexivity. discriminate Hsyncing.
Qed.

Lemma syncing_iff_cycle_in_flight_witness :
  cycles_in_flight system_mid_sync = 1%nat
  /\ (syncing (component system_mid_sync) = true
      <-> cycles_in_flight system_mid_sync = 1%nat).
Proof.
  split; [reflexivity | ].
  exact (syncing_iff_cycle_in_flight starts_with_scheme false system_mid_sync
           system_mid_sync_reachable).
Defined.

(** ** The selection across awaits *)

Lemma benign_bind {A B : Type} (p : prog A) (f : A -> prog B) :
  benign p -> (forall a, benign (f a)) -> benign (bind p f).
Proof.
  intros Hp Hf. induction p as [a | t | a k IH | c k IH | c k IH | k IH | k IH];
    cbn in *; auto.
  destruct Hp as [Ha Hk]. split; auto.
Qed.

Lemma benign_try_catch {A : Type} (p : prog A) (h : thrown -> prog A) :
  benign p -> (forall t, benign (h t)) -> benign (try_catch p h).
Proof.
  intros Hp Hh. induction p as [a | t | a k IH | c k IH | c k IH | k IH | k IH];
    cbn in *; auto.
  destruct Hp as [Ha Hk]. split; auto.
Qed.

Lemma benign_try_finally {A : Type} (p : prog A) (fin : prog unit) :
  benign p -> benign fin -> benign (try_finally p fin).
Proof.
  intros Hp Hfin.
  induction p as [a | t | a k IH | c k IH | c k IH | k IH | k IH];
    cbn in *; auto.
  - apply benign_bind; [exact Hfin | intros; exact I].
  - apply benign_bind; [exact Hfin | intros; exact I].
  - destruct Hp as [Ha Hk]. split; auto.
Qed.

Lemma benign_settle {A : Type} (x : throwable A) : benign (settle x).
Proof. destruct x; exact I. Qed.

(** Walks through a handler given in full, answer by answer. *)
Ltac walk :=
  repeat
    (cbn;
     match goal with
     | |- forall x : throwable unit, _ => intros [[] | ?]
     | |- forall x : throwable bool, _ => intros [[ | ] | ?]
     | |- forall x : throwable _, _ => intros [? | ?]
     | |- _ /\ _ => split
     | |- True => exact I
     | |- ?a = ?a => reflexivity
     | |- context [if ?b then _ else _] => destruct b
     end).

Lemma advance_benign {A : Type} (p p' : prog A) (st st' : State)
    (past tr : list event) :
  benign p -> advance p st past = (p', st', tr) ->
  benign p'
  /\ customServers st' = customServers st
  /\ (selectedServer st' = selectedServer st
      \/ selectedServer st' = DEFAULT_SERVER_0).
Proof.
  revert st past.
  induction p as [a | t | a k IH | c k IH | c k IH | k IH | k IH];
    cbn [benign advance]; intros st past Hp Hadv;
    try (injection Hadv as <- <- <-;
         split; [exact Hp | split; [reflexivity | left; reflexivity]]).
  destruct Hp as [Ha Hk]. destruct (IH _ _ Hk Hadv) as (Hb & Hc & Hs).
  split; [exact Hb | ].
  destruct a; try contradiction; cbn in Hc, Hs;
    (split; [exact Hc | ]); try exact Hs.
  subst v. destruct Hs as [Hs | Hs]; right; exact Hs.
Qed.

Lemma advance_restores {A : Type} (p p' : prog A) (st st' : State)
    (past tr : list event) :
  restores p -> benign p -> advance p st past = (p', st', tr) ->
  (suspended p' = true /\ restores p')
  \/ selectedServer st' = DEFAULT_SERVER_0.
Proof.
  revert st past.
  induction p as [a | t | a k IH | c k IH | c k IH | k IH | k IH];
    cbn [restores benign advance]; intros st past Hr Hp Hadv;
    try contradiction;
    try (injection Hadv as <- <- <-; left; split; [reflexivity | exact Hr]).
  destruct Hp as [Ha Hk].
  destruct a; try (exact (IH _ _ Hr Hk Hadv)).
  subst v. right.
  destruct (advance_benign _ _ _ _ _ _ Hk Hadv) as (_ & _ & [Hs | Hs]);
    exact Hs.
Qed.

Lemma resume_benign {A : Type} (p q : prog A) (a : answer) (e : event) :
  benign p -> resume p a = Some (q, e) -> benign q.
Proof.
  destruct p, a; cbn; intros Hp Hres; try discriminate Hres;
    injection Hres as <- _; apply Hp.
Qed.

Lemma resume_restores {A : Type} (p q : prog A) (a : answer) (e : event) :
  restores p -> resume p a = Some (q, e) -> restores q.
Proof.
  destruct p, a; cbn; intros Hp Hres; try discriminate Hres;
    injection Hres as <- _; apply Hp.
Qed.

Lemma default_server_known (st : State) :
  selectedServer st = DEFAULT_SERVER_0 -> server_invariant st.
Proof. intros H. left. rewrite H. cbn. tauto. Qed.

Lemma add_effect (st st' : State) (past tr : list event) (p : prog unit) :
  advance (handleAddServer st) st past = (p, st', tr) ->
  benign p /\ (server_invariant st -> server_invariant st').
Proof.
  unfold handleAddServer, saveSettings. destruct (isValidUrl st); cbn [negb].
  - destruct (includes (customServers st) (newServerUrl st)
              || is_default_server (newServerUrl st))%bool;
      cbn; intros Hadv; injection Hadv as <- <- <-; (split; [walk | ]).
    + auto.
    + intros _. right. cbn. apply in_or_app. right. left. reflexivity.
  - cbn. intros Hadv. injection Hadv as <- <- <-. split; [walk | auto].
Qed.

(** What the synchronous start of a handler does to the selection. *)
Lemma dispatch_effect (parses : string -> bool) (ev : ui_event) (st st' : State)
    (past tr : list event) (p : prog unit) :
  ev <> Mount ->
  advance (handler_of parses ev st) st past = (p, st', tr) ->
  benign p
  /\ (server_invariant st -> enabled st ev ->
      server_invariant st' \/ (suspended p = true /\ restores p)).
Proof.
  intros Hev Hadv. destruct ev; try contradiction; cbn [handler_of] in Hadv.
  - cbn in Hadv. injection Hadv as <- <- <-. split; [walk | auto].
  - cbn in Hadv. injection Hadv as <- <- <-. split; [walk | auto].
  - cbn in Hadv. injection Hadv as <- <- <-. split; [walk | auto].
  - cbn in Hadv. injection Hadv as <- <- <-. split; [walk | auto].
  - unfold handleKeyPress in Hadv.
    destruct (String.eqb key "Enter" && isValidUrl st).
    + destruct (add_effect _ _ _ _ _ Hadv) as [Hb Hinv]. split; auto.
    + cbn in Hadv. injection Hadv as <- <- <-. split; [walk | auto].
  - destruct (add_effect _ _ _ _ _ Hadv) as [Hb Hinv]. split; auto.
  - unfold handleRemoveServer, saveSettings in Hadv.
    destruct (String.eqb (selectedServer st) serverUrl) eqn:Hsel;
      cbn in Hadv; injection Hadv as <- <- <-; (split; [walk | ]).
    + intros _ _. right. split; [reflexivity | walk].
    + intros [Hd | Hc] _; [left; left; exact Hd | left; right]. cbn.
      apply kept_after_removal; assumption.
  - unfold handleServerChange, saveSettings, truthy in Hadv.
    destruct v as [s | ].
    + destruct (String.eqb s ""); cbn in Hadv;
        injection Hadv as <- <- <-; (split; [walk | auto]).
      intros _ Hen. left. unfold enabled in Hen.
      rewrite serverOptions_values in Hen. apply in_app_or in Hen.
      exact Hen.
    + cbn in Hadv. injection Hadv as <- <- <-. split; [walk | auto].
  - unfold onSeedPhraseChange, saveSettings in Hadv. cbn in Hadv.
    injection Hadv as <- <- <-. split; [walk | auto].
  - unfold onAutoSyncChange, saveSettings in Hadv. cbn in Hadv.
    injection Hadv as <- <- <-. split; [walk | auto].
  - unfold handleSync in Hadv.
    destruct (String.eqb (seedPhrase st) ""); cbn in Hadv;
      injection Hadv as <- <- <-; (split; [walk | auto]).
  - unfold generateNewSeedPhrase, saveSettings in Hadv. cbn in Hadv.
    injection Hadv as <- <- <-. split; [walk | auto].
Qed.

Lemma selection_safe_dispatch (parses : string -> bool) (s : System)
    (ev : ui_event) :
  selection_safe s -> ev <> Mount -> enabled (component s) ev ->
  selection_safe (dispatch parses s ev).
Proof.
  intros (Hbenign & Hsel) Hev Hen. unfold dispatch.
  destruct (advance (handler_of parses ev (component s)) (component s) (seen s))
    as [[p st] tr] eqn:Hadv.
  destruct (dispatch_effect _ _ _ _ _ _ _ Hev Hadv) as [Hb Heffect].
  unfold selection_safe. cbn [parked component]. split.
  - intros t Hin. apply in_app_or in Hin. destruct Hin as [Hin | Hin].
    + apply Hbenign, Hin.
    + apply in_park in Hin. subst t. exact Hb.
  - destruct Hsel as [Hinv | (t & Hin & Hr)].
    + destruct (Heffect Hinv Hen) as [Hinv' | (Hsusp & Hr)];
        [left; exact Hinv' | right].
      exists {| source := ev; rest := p |}. split; [ | exact Hr].
      apply in_or_app. right. unfold park. rewrite Hsusp. left. reflexivity.
    + right. exists t. split; [ | exact Hr]. apply in_or_app. left. exact Hin.
Qed.

Lemma selection_safe_deliver (s s' : System) (before after : list Task)
    (t : Task) (a : answer) :
  selection_safe s -> parked s = before ++ t :: after ->
  deliver s before after t a = Some s' ->
  selection_safe s'.
Proof.
  intros (Hbenign & Hsel) Hparked. unfold deliver.
  destruct (resume (rest t) a) as [[q e]|] eqn:Hres; [ | discriminate].
  destruct (advance q (component s) (seen s ++ [e])) as [[p st] tr] eqn:Hadv.
  intros Hs'. injection Hs' as <-.
  rewrite Hparked in Hbenign, Hsel.
  pose proof (Hbenign t (in_elt t before after)) as Hmine.
  pose proof (resume_benign _ _ _ _ Hmine Hres) as Hq.
  destruct (advance_benign _ _ _ _ _ _ Hq Hadv) as (Hp & Hcustoms & Hselected).
  unfold selection_safe. cbn [parked component]. split.
  - intros u Hin. apply in_app_or in Hin. destruct Hin as [Hin | Hin].
    + apply Hbenign. apply in_or_app. left. exact Hin.
    + apply in_app_or in Hin. destruct Hin as [Hin | Hin].
      * apply in_park in Hin. subst u. exact Hp.
      * apply Hbenign. apply in_or_app. right. right. exact Hin.
  - destruct Hsel as [Hinv | (u & Hin & Hr)].
    + left. destruct Hselected as [Hsame | Hdefault].
      * unfold server_invariant in *. rewrite Hsame, Hcustoms. exact Hinv.
      * apply default_server_known, Hdefault.
    + apply in_app_or in Hin. destruct Hin as [Hin | [<- | Hin]].
      * right. exists u. split; [ | exact Hr]. apply in_or_app. left.
        exact Hin.
      * pose proof (resume_restores _ _ _ _ Hr Hres) as Hrq.
        destruct (advance_restores _ _ _ _ _ _ Hrq Hq Hadv)
          as [(Hsusp & Hrp) | Hdefault].
        -- right. exists {| source := source t; rest := p |}.
           split; [ | exact Hrp].
           apply in_or_app. right. apply in_or_app. left.
           unfold park. rewrite Hsusp. left. reflexivity.
        -- left. apply default_server_known, Hdefault.
      * right. exists u. split; [ | exact Hr].
        apply in_or_app. right. apply in_or_app. right. exact Hin.
Qed.

Lemma selection_safe_reachable (parses : string -> bool) (s0 s : System) :
  selection_safe s0 -> user_reachable parses s0 s -> selection_safe s.
Proof.
  intros Hstart Hreach.
  induction Hreach as [ | s s' Hreach IH Hstep]; [exact Hstart | ].
  destruct Hstep as [s ev Hev Hen | s s' before after t a Hparked Hdel].
  - apply selection_safe_dispatch; assumption.
  - eapply selection_safe_deliver; eassumption.
Qed.

(** X19. Start from a component at rest whose selection is a default or
    custom server.  However the user's actions and the answers of the
    services interleave from there, with handlers parked at their awaits,
    whenever all handlers have run to their end the selection is again a
    default or custom server.  (In between it may not be: removing the
    selected server takes it off the list before the selection moves.) *)
Theorem selection_known_at_rest (parses : string -> bool) (st : State)
    (s : System) :
  server_invariant st ->
  user_reachable parses (system_at_rest st) s ->
  parked s = [] ->
  server_invariant (component s).
Proof.
  intros Hinv Hreach Hrest.
  assert (Hstart : selection_safe (system_at_rest st)).
  { split; [intros t [] | left; exact Hinv]. }
  destruct (selection_safe_reachable _ _ _ Hstart Hreach)
    as (_ & [Hdone | (t & Hin & _)]); [exact Hdone | ].
  rewrite Hrest in Hin. contradiction.
Qed.

Lemma answer_first_reachable (parses : string -> bool) (s0 s s' : System)
    (a : answer) (t : Task) (after : list Task) :
  user_reachable parses s0 s ->
  parked s = t :: after ->
  deliver s [] after t a = Some s' ->
  user_reachable parses s0 (answer_first s a).
Proof.
  intros Hreach Hparked Hdel. unfold answer_first. rewrite Hparked, Hdel.
  apply user_reachable_step with (s := s); [exact Hreach | ].
  apply user_answer with (before := []) (after := after) (t := t) (a := a);
    assumption.
Qed.

Lemma system_after_removal_reachable :
  user_reachable starts_with_scheme
    (system_at_rest (with_custom_server "https://notes.example.org"))
    system_after_removal.
Proof.
  unfold system_after_removal.
  eapply answer_first_reachable; [ | reflexivity | reflexivity].
  eapply answer_first_reachable; [ | reflexivity | reflexivity].
  eapply answer_first_reachable; [ | reflexivity | reflexivity].
  eapply answer_first_reachable; [ | reflexivity | reflexivity].
  apply user_reachable_step
    with (s := system_at_rest (with_custom_server "https://notes.example.org")).
  - apply user_reachable_start.
  - apply user_event; [discriminate | left; reflexivity].
Defined.

Lemma selection_known_at_rest_witness :
  server_invariant (with_custom_server "https://notes.example.org")
  /\ parked system_after_removal = []
  /\ customServers (component system_after_removal) = []
  /\ server_invariant (component system_after_removal).
Proof.
  assert (Hinv : server_invariant
                   (with_custom_server "https://notes.example.org"))
    by (right; left; reflexivity).
  split; [exact Hinv | ].
  split; [reflexivity | ].
  split; [reflexivity | ].
  exact (selection_known_at_rest starts_with_scheme
           (with_custom_server "https://notes.example.org")
           system_after_removal Hinv system_after_removal_reachable
           eq_refl).
Defined.

(** ** Changing the selection *)

(** X20. [handleServerChange] ignores [null] and the empty text: nothing is
    set, nothing is written.  For any other value it selects the value and,
    when the stored settings can be read, writes one object that names the
    value as [server_url] beside the custom servers of the render. *)
Theorem handleServerChange_selects (env : Services) (r : Render) (st : State)
    (v : option string) :
  let out := run env (handleServerChange r v) st [] in
  if truthy v then
    selectedServer (state_of out) = match v with Some s => s | None => "" end
    /\ customServers (state_of out) = customServers st
    /\ match answer_settings env
               [Did (SetSelectedServer
                       match v with Some s => s | None => "" end)] with
       | Returned _ =>
           exists obj, writes_of (trace_of out) = [obj]
                       /\ has_server_url obj = v
                       /\ has_custom_servers obj = Some (customServers r)
       | Threw _ => writes_of (trace_of out) = []
       end
  else out = (Returned tt, st, []).
Proof.
  unfold handleServerChange, saveSettings, truthy.
  destruct v as [s | ]; [ | reflexivity].
  destruct (String.eqb s ""); [reflexivity | ]. cbn.
  destruct (answer_settings env [Did (SetSelectedServer s)]) as [cur | t];
    cbn; [ | repeat split].
  next_answer; (split; [reflexivity | split; [reflexivity | ]]);
    eexists; repeat split.
Qed.
